(** * The credential lifecycle of the [auth-demo] element

    A shallow embedding of [web-implict/src/main.ts]: the free function
    [fetchFileList] and the methods [_run], [_revoke],
    [_requestAuthorization], [errorMessage], [filesTemplate], [fetchTemplate],
    [revokeTemplate] and [render] of the class [AuthDemo].

    The element is event driven.  Every [async] method is cut at its [await]s:
    the part that runs synchronously is a function on the [World], and the
    part after an [await] runs when the event that settles the awaited promise
    arrives.  Continuations of a settled promise are microtasks, so they run
    before the next event is taken; the model runs them inside the step that
    settles the promise.

    Numbers ([Date.now()], [expires_in], HTTP statuses) are integers well
    below 2^53 in the program and are modelled in [Z]. *)

From Stdlib Require Import ZArith Lia String.
From stdpp Require Import base decidable option list strings.

Local Open Scope string_scope.
Local Open Scope Z_scope.

Set Warnings "-register-all".

(** ** JavaScript values, as far as [res.json()] can produce them *)

Module Js.

Inductive value : Type :=
| Undefined
| Null
| Bool (b : bool)
| Num (n : Z)
| Str (s : string)
| Arr (xs : list value)
| Obj (fields : list (string * value)).

(** What a rejected promise carries. *)
Inductive error : Type :=
| Error (message : string)      (* [new Error(message)] *)
| TypeError                     (* property of [undefined]/[null], call of a non-function *)
| SyntaxError                   (* [res.json()] on a body that is not JSON *)
| NetworkError                  (* [fetch] with no response *)
| ProviderError (type : string) (* the [err] handed to [error_callback] *).

Inductive completion (A : Type) : Type :=
| Return (a : A)
| Throw (e : error).
Arguments Return {A} a.
Arguments Throw {A} e.

Definition bind {A B} (m : completion A) (k : A -> completion B) : completion B :=
  match m with
  | Return a => k a
  | Throw e => Throw e
  end.

Fixpoint assoc (k : string) (fields : list (string * value)) : value :=
  match fields with
  | [] => Undefined
  | (k', v) :: rest => if String.eqb k k' then v else assoc k rest
  end.

(** [v.k] *)
Definition get (v : value) (k : string) : completion value :=
  match v with
  | Undefined | Null => Throw TypeError
  | Obj fields => Return (assoc k fields)
  | Arr xs =>
      Return (if String.eqb k "length" then Num (Z.of_nat (List.length xs)) else Undefined)
  | Str s =>
      Return (if String.eqb k "length" then Num (Z.of_nat (String.length s)) else Undefined)
  | Bool _ | Num _ => Return Undefined
  end.

(** Truthiness, as used by [if (v)], [!v] and [&&]. *)
Definition truthy (v : value) : bool :=
  match v with
  | Undefined | Null => false
  | Bool b => b
  | Num n => negb (n =? 0)
  | Str s => negb (String.eqb s "")
  | Arr _ | Obj _ => true
  end.

(** [xs.map(f)] where [f] may throw. *)
Fixpoint map_throwing {A B} (f : A -> completion B) (xs : list A) : completion (list B) :=
  match xs with
  | [] => Return []
  | x :: rest =>
      bind (f x) (fun y => bind (map_throwing f rest) (fun ys => Return (y :: ys)))
  end.

End Js.

Import Js.

(** A [null | string] field. *)
Definition truthy_string (s : option string) : bool :=
  match s with
  | Some t => negb (String.eqb t "")
  | None => false
  end.

(** ** The element's reactive state *)

Record AuthDemo : Type := mkAuthDemo {
  _files : value;
  _accessToken : option string;
  _tokenExpiresAt : Z;
  _error : option string
}.

(** [constructor()] *)
Definition constructor : AuthDemo :=
  {| _files := Arr [];
     _accessToken := None;
     _tokenExpiresAt := 0;
     _error := None |}.

Definition set_files (v : value) (e : AuthDemo) : AuthDemo :=
  {| _files := v; _accessToken := _accessToken e;
     _tokenExpiresAt := _tokenExpiresAt e; _error := _error e |}.

Definition set_accessToken (t : option string) (e : AuthDemo) : AuthDemo :=
  {| _files := _files e; _accessToken := t;
     _tokenExpiresAt := _tokenExpiresAt e; _error := _error e |}.

Definition set_tokenExpiresAt (z : Z) (e : AuthDemo) : AuthDemo :=
  {| _files := _files e; _accessToken := _accessToken e;
     _tokenExpiresAt := z; _error := _error e |}.

Definition set_error (m : option string) (e : AuthDemo) : AuthDemo :=
  {| _files := _files e; _accessToken := _accessToken e;
     _tokenExpiresAt := _tokenExpiresAt e; _error := m |}.

(** [filesTemplate()]: the names it renders, [None] when it renders nothing. *)
Definition filesTemplate (e : AuthDemo) : completion (option (list value)) :=
  bind (get (_files e) "length") (fun len =>
  if truthy len then
    match _files e with
    | Arr xs =>
        bind (map_throwing (fun file => get file "name") xs) (fun names =>
        Return (Some names))
    | _ => Throw TypeError          (* [.map] is not a function *)
    end
  else Return None).

(** ** Rendering *)

(** What a sub-template puts on the page. *)
Inductive Template : Type :=
| ErrorBox (message : string)     (* [<div class="error">${this._error}</div>] *)
| FetchButton                     (* the "Fetch files" button *)
| RevokeButton                    (* the "Revoke access" button *)
| FilesList (names : list value)  (* one [<li>] per file name *).

(** [errorMessage()] *)
Definition errorMessage (e : AuthDemo) : option Template :=
  if truthy_string (_error e) then
    match _error e with
    | Some message => Some (ErrorBox message)
    | None => None
    end
  else None.

(** [fetchTemplate()] *)
Definition fetchTemplate (e : AuthDemo) : Template := FetchButton.

(** [revokeTemplate()] *)
Definition revokeTemplate (e : AuthDemo) : option Template :=
  if negb (truthy_string (_accessToken e)) then None else Some RevokeButton.

(** [render()]: the four slots in the order of the template; a sub-template
    that returns [undefined] puts nothing on the page. *)
Definition render (e : AuthDemo) : completion (list Template) :=
  let error := errorMessage e in
  let fetch := fetchTemplate e in
  let revoke := revokeTemplate e in
  bind (filesTemplate e) (fun files =>
  Return (option_list error ++ [fetch] ++ option_list revoke
            ++ option_list (option_map FilesList files))%list).

(** ** The collaborators *)

(** The argument of the token client's [callback]. *)
Record TokenResponse : Type := mkTokenResponse {
  access_token : option string;
  expires_in : Z;
  scope : list string             (* the scopes the user granted *)
}.

(** [google.accounts.oauth2.hasGrantedAnyScope(response, scope)] of the
    Google Identity Services library. *)
Definition hasGrantedAnyScope (response : TokenResponse) (s : string) : bool :=
  existsb (String.eqb s) (scope response).

(** The [Response] of [fetch], with its body already parsed by [res.json()]
    ([None]: the body is not JSON). *)
Record Response : Type := mkResponse {
  status : Z;
  json : option value
}.

(** The promise built by [new Promise((resolve, reject) => ...)]. *)
Inductive Promise : Type :=
| Pending
| Resolved (v : option string)
| Rejected (e : error).

(** Where one invocation of [_run] stands. *)
Inductive RunState : Type :=
| AwaitAuth (client : nat)        (* suspended at [await this._requestAuthorization()] *)
| AwaitFetch (request : nat)      (* suspended inside [await fetchFileList(...)] *)
| RunDone
| RunFailed (e : error).

#[global] Instance error_eq_dec : EqDecision error.
Proof. solve_decision. Defined.

#[global] Instance RunState_eq_dec : EqDecision RunState.
Proof. solve_decision. Defined.

#[global] Instance Promise_eq_dec : EqDecision Promise.
Proof. solve_decision. Defined.

(** The element together with what it has asked of its collaborators. *)
Record World : Type := mkWorld {
  elem : AuthDemo;
  clients : list Promise;           (* one per [initTokenClient]; each got one [requestAccessToken()] *)
  requests : list (option string);  (* the bearer token of every [fetch] issued *)
  revocations : list string;        (* the token of every [google.accounts.oauth2.revoke] call *)
  runs : list RunState
}.

Definition start : World :=
  {| elem := constructor; clients := []; requests := [];
     revocations := []; runs := [] |}.

Definition with_elem (e : AuthDemo) (w : World) : World :=
  {| elem := e; clients := clients w; requests := requests w;
     revocations := revocations w; runs := runs w |}.

Definition with_clients (cs : list Promise) (w : World) : World :=
  {| elem := elem w; clients := cs; requests := requests w;
     revocations := revocations w; runs := runs w |}.

Definition with_requests (qs : list (option string)) (w : World) : World :=
  {| elem := elem w; clients := clients w; requests := qs;
     revocations := revocations w; runs := runs w |}.

Definition with_revocations (ts : list string) (w : World) : World :=
  {| elem := elem w; clients := clients w; requests := requests w;
     revocations := ts; runs := runs w |}.

Definition with_runs (rs : list RunState) (w : World) : World :=
  {| elem := elem w; clients := clients w; requests := requests w;
     revocations := revocations w; runs := rs |}.

(** Provider round-trips (popups) started so far. *)
Definition round_trips (w : World) : nat := length (clients w).

(** Round-trips started and not yet settled. *)
Definition in_flight (w : World) : nat :=
  length (filter (fun p => p = Pending) (clients w)).

(** ** The operations *)

(** The single scope [_requestAuthorization] asks for. *)
Definition SCOPE : string := "https://www.googleapis.com/auth/drive.readonly".

(** [fetchFileList(accessToken)] up to [await fetch(...)]: one request goes
    out with the bearer token; its number is returned. *)
Definition fetchFileList_call (accessToken : option string) (w : World) : nat * World :=
  (length (requests w), with_requests (requests w ++ [accessToken]) w).

(** [fetchFileList] from the response on. *)
Definition fetchFileList (res : Response) : completion value :=
  if status res >=? 400 then Throw (Error "Unable to fetch files")
  else
    match json res with
    | None => Throw SyntaxError
    | Some body => get body "files"
    end.

(** [_requestAuthorization()] up to [client.requestAccessToken()]: a new
    token client with a pending promise; its number is returned. *)
Definition _requestAuthorization (w : World) : nat * World :=
  (length (clients w), with_clients (clients w ++ [Pending]) w).

(** The condition of the [if] in [_run]. *)
Definition needs_authorization (e : AuthDemo) (now : Z) : bool :=
  negb (truthy_string (_accessToken e)) || (_tokenExpiresAt e <? now).

(** [_run()] up to its first [await]. *)
Definition _run (now : Z) (w : World) : World :=
  if needs_authorization (elem w) now then
    let '(c, w1) := _requestAuthorization w in
    with_runs (runs w1 ++ [AwaitAuth c]) w1
  else
    let '(q, w1) := fetchFileList_call (_accessToken (elem w)) w in
    with_runs (runs w1 ++ [AwaitFetch q]) w1.

(** [_run()] resumed after [await this._requestAuthorization()]: every run
    that awaited client [c] calls [fetchFileList(this._accessToken)]. *)
Fixpoint resume_authorized (c : nat) (accessToken : option string)
    (qs : list (option string)) (rs : list RunState)
  : list (option string) * list RunState :=
  match rs with
  | [] => (qs, [])
  | r :: rest =>
      if decide (r = AwaitAuth c) then
        let '(qs', rest') := resume_authorized c accessToken (qs ++ [accessToken]) rest in
        (qs', AwaitFetch (length qs) :: rest')
      else
        let '(qs', rest') := resume_authorized c accessToken qs rest in
        (qs', r :: rest')
  end.

(** Replace the state [from] of every run that is in it. *)
Definition advance (from to : RunState) (rs : list RunState) : list RunState :=
  map (fun r => if decide (r = from) then to else r) rs.

(** [resolve(v)] of client [c]'s promise; a settled promise ignores it. *)
Definition resolve (c : nat) (v : option string) (w : World) : World :=
  match clients w !! c with
  | Some Pending =>
      let '(qs, rs) :=
        resume_authorized c (_accessToken (elem w)) (requests w) (runs w) in
      with_runs rs (with_requests qs (with_clients (<[c := Resolved v]> (clients w)) w))
  | _ => w
  end.

(** [reject(err)] of client [c]'s promise: the awaiting [_run] rethrows; a
    settled promise ignores it. *)
Definition reject (c : nat) (err : error) (w : World) : World :=
  match clients w !! c with
  | Some Pending =>
      with_runs (advance (AwaitAuth c) (RunFailed err) (runs w))
        (with_clients (<[c := Rejected err]> (clients w)) w)
  | _ => w
  end.

(** The condition of the [if] in the token client's [callback]:
    [response && response.access_token && hasGrantedAnyScope(response, scope)]. *)
Definition granted (response : option TokenResponse) : bool :=
  match response with
  | Some r => truthy_string (access_token r) && hasGrantedAnyScope r SCOPE
  | None => false
  end.

(** The [callback] given to [initTokenClient] for client [c]. *)
Definition callback (c : nat) (response : option TokenResponse) (now : Z) (w : World) : World :=
  let not_granted := with_elem (set_error (Some "Authorization required.") (elem w)) w in
  match response with
  | Some r =>
      if truthy_string (access_token r) && hasGrantedAnyScope r SCOPE then
        let e1 := set_error None (elem w) in
        let e2 := set_accessToken (access_token r) e1 in
        let e3 := set_tokenExpiresAt (now + expires_in r * 1000) e2 in
        resolve c (_accessToken e3) (with_elem e3 w)
      else not_granted
  | None => not_granted
  end.

(** The message [error_callback] stores for [err.type]. *)
Definition error_message (type : string) : string :=
  if String.eqb type "popup_closed" then "Authorization required"
  else "An unexpected error occurred".

(** The [error_callback] given to [initTokenClient] for client [c];
    [type] is [err.type]. *)
Definition error_callback (c : nat) (type : string) (w : World) : World :=
  reject c (ProviderError type)
    (with_elem (set_error (Some (error_message type)) (elem w)) w).

(** [_revoke()] up to the provider call. *)
Definition _revoke (w : World) : World :=
  match _accessToken (elem w) with
  | Some t =>
      if truthy_string (Some t) then with_revocations (revocations w ++ [t]) w else w
  | None => w
  end.

(** The callback [_revoke] hands to [google.accounts.oauth2.revoke]. *)
Definition revoke_callback (w : World) : World :=
  with_elem (set_accessToken None (set_files (Arr []) (elem w))) w.

(** [_run()] resumed after [await fetchFileList(...)] for request [q]. *)
Definition fetch_settled (q : nat) (outcome : completion value) (w : World) : World :=
  if decide (AwaitFetch q ∈ runs w) then
    match outcome with
    | Return files =>
        with_runs (advance (AwaitFetch q) RunDone (runs w))
          (with_elem (set_files files (elem w)) w)
    | Throw e => with_runs (advance (AwaitFetch q) (RunFailed e) (runs w)) w
    end
  else w.

(** ** The event loop *)

Inductive Event : Type :=
| ClickFetch (now : Z)                                    (* the "Fetch files" button *)
| ClickRevoke                                             (* the "Revoke access" button *)
| TokenCallback (c : nat) (response : option TokenResponse) (now : Z)
| ErrorCallback (c : nat) (type : string)
| RevokeCallback (i : nat)                                (* the provider confirms revocation [i] *)
| FetchResponse (q : nat) (res : Response)
| FetchFailure (q : nat)                                  (* request [q] got no response *).

Definition step (w : World) (ev : Event) : World :=
  match ev with
  | ClickFetch now => _run now w
  | ClickRevoke => _revoke w
  | TokenCallback c response now =>
      if decide (c < length (clients w))%nat then callback c response now w else w
  | ErrorCallback c type =>
      if decide (c < length (clients w))%nat then error_callback c type w else w
  | RevokeCallback i =>
      if decide (i < length (revocations w))%nat then revoke_callback w else w
  | FetchResponse q res => fetch_settled q (fetchFileList res) w
  | FetchFailure q => fetch_settled q (Throw NetworkError) w
  end.

Definition exec (w : World) (evs : list Event) : World := foldl step w evs.

(** ** Vocabulary of the statements *)

(** The readings an event carries are those of a real clock and a real
    provider: [Date.now()] is positive and [expires_in] is not negative. *)
Definition clock_sane (ev : Event) : Prop :=
  match ev with
  | TokenCallback _ (Some r) now => 0 < now /\ 0 <= expires_in r
  | _ => True
  end.

(** The event [ev] makes run number [i] of world [w] fail with [e]: the
    listing call throws, the request gets no response, or the authorization
    promise is rejected. *)
Inductive fetch_fails (w : World) : Event -> nat -> error -> Prop :=
| listing_throws q res e i :
    fetchFileList res = Throw e ->
    runs w !! i = Some (AwaitFetch q) ->
    fetch_fails w (FetchResponse q res) i e
| no_response q i :
    runs w !! i = Some (AwaitFetch q) ->
    fetch_fails w (FetchFailure q) i NetworkError
| authorization_rejected c type i :
    clients w !! c = Some Pending ->
    runs w !! i = Some (AwaitAuth c) ->
    fetch_fails w (ErrorCallback c type) i (ProviderError type).

(** The event [ev] ends an authorization attempt of world [w] without a
    grant, and [message] is what the code shows for it: the token callback
    fires without a token or without the scope, the user closes the popup, or
    the provider reports another error. *)
Inductive denied (w : World) : Event -> string -> Prop :=
| scope_not_granted c response now :
    (c < length (clients w))%nat ->
    granted response = false ->
    denied w (TokenCallback c response now) "Authorization required."
| user_cancelled c :
    (c < length (clients w))%nat ->
    denied w (ErrorCallback c "popup_closed") "Authorization required"
| provider_error c type :
    (c < length (clients w))%nat ->
    type <> "popup_closed" ->
    denied w (ErrorCallback c type) "An unexpected error occurred".

(** The two buttons. *)
Definition is_fetch_click (ev : Event) : bool :=
  match ev with ClickFetch _ => true | _ => false end.

Definition is_revoke_click (ev : Event) : bool :=
  match ev with ClickRevoke => true | _ => false end.

(** One for a click, nothing for any other event. *)
Definition ticks (b : bool) : nat := if b then 1%nat else 0%nat.

(** Runs suspended on an authorization. *)
Definition is_AwaitAuth (r : RunState) : bool :=
  match r with AwaitAuth _ => true | _ => false end.

Definition awaiting_authorization (rs : list RunState) : nat :=
  length (List.filter is_AwaitAuth rs).

(** A value that [filesTemplate] can render: an array without [undefined]
    and [null] entries. *)
Definition is_nullish (v : value) : bool :=
  match v with Undefined | Null => true | _ => false end.

Definition files_array (v : value) : bool :=
  match v with
  | Arr xs => forallb (fun file => negb (is_nullish file)) xs
  | _ => false
  end.

(** The server keeps the contract of the listing endpoint: whenever
    [fetchFileList] returns for a response, it returns such an array. *)
Definition listing_well_formed (ev : Event) : Prop :=
  match ev with
  | FetchResponse _ res => forall v, fetchFileList res = Return v -> files_array v = true
  | _ => True
  end.

(** The messages the code can store in [_error]. *)
Definition error_messages : list string :=
  ["Authorization required."; "Authorization required"; "An unexpected error occurred"].

(** The provider's confirmation of a revocation. *)
Definition is_revoke_confirmation (ev : Event) : bool :=
  match ev with RevokeCallback _ => true | _ => false end.

(** An event that is neither the confirmation of a revocation nor a listing
    response for which [fetchFileList] returns. *)
Definition quiet (ev : Event) : Prop :=
  match ev with
  | RevokeCallback _ => False
  | FetchResponse _ res => forall v, fetchFileList res <> Return v
  | _ => True
  end.

(** ** Scenarios *)

Definition drive_readonly (token : string) (seconds : Z) : option TokenResponse :=
  Some {| access_token := Some token; expires_in := seconds; scope := [SCOPE] |}.

Definition file (name : string) : value :=
  Obj [("id", Str ("id-" ++ name)); ("name", Str name)].

Definition listing (names : list string) : Response :=
  {| status := 200;
     json := Some (Obj [("kind", Str "drive#fileList"); ("files", Arr (map file names))]) |}.

(** A session that holds token ["T"] until [3601000]. *)
Definition authorized : World :=
  exec start [ClickFetch 1000; TokenCallback 0 (drive_readonly "T" 3600) 1000].

(** The same session once its token has run out and a second popup is open. *)
Definition reauthorizing : World := step authorized (ClickFetch 5000000).

(** ** Sanity checks of the model *)

Example scenario_fresh_session :
  let w := exec start [ClickFetch 1000; TokenCallback 0 (drive_readonly "T" 3600) 1500;
                       FetchResponse 0 (listing ["a.txt"; "b.txt"]); ClickFetch 2000] in
  round_trips w = 1%nat /\
  requests w = [Some "T"; Some "T"] /\
  runs w = [RunDone; AwaitFetch 1] /\
  _error (elem w) = None /\
  filesTemplate (elem w) = Return (Some [Str "a.txt"; Str "b.txt"]).
Proof. vm_compute. repeat split. Qed.

Example scenario_authorized :
  elem authorized =
    {| _files := Arr []; _accessToken := Some "T";
       _tokenExpiresAt := 3601000; _error := None |} /\
  clients authorized = [Resolved (Some "T")] /\
  runs authorized = [AwaitFetch 0] /\
  runs reauthorizing = [AwaitFetch 0; AwaitAuth 1].
Proof. vm_compute. repeat split. Qed.

(** ** Basic facts about the operations *)

Lemma truthy_string_Some (t : string) : t <> "" -> truthy_string (Some t) = true.
Proof.
  intros Hne. simpl. destruct (String.eqb_spec t ""); [contradiction | reflexivity].
Qed.

Lemma truthy_string_inv (s : option string) :
  truthy_string s = true -> exists t, s = Some t /\ t <> "".
Proof.
  destruct s as [t|]; simpl; [|discriminate].
  destruct (String.eqb_spec t ""); [discriminate|]. intros _. eauto.
Qed.

Lemma needs_authorization_stored (e : AuthDemo) (now : Z) (t : string) :
  _accessToken e = Some t -> t <> "" ->
  needs_authorization e now = (_tokenExpiresAt e <? now).
Proof.
  intros Htok Hne. unfold needs_authorization.
  rewrite Htok, (truthy_string_Some t Hne). reflexivity.
Qed.

Lemma _run_authorizes (w : World) (now : Z) :
  needs_authorization (elem w) now = true ->
  _run now w =
    {| elem := elem w; clients := clients w ++ [Pending]; requests := requests w;
       revocations := revocations w;
       runs := runs w ++ [AwaitAuth (length (clients w))] |}.
Proof. intros H. unfold _run. rewrite H. reflexivity. Qed.

Lemma _run_reuses (w : World) (now : Z) :
  needs_authorization (elem w) now = false ->
  _run now w =
    {| elem := elem w; clients := clients w;
       requests := requests w ++ [_accessToken (elem w)];
       revocations := revocations w;
       runs := runs w ++ [AwaitFetch (length (requests w))] |}.
Proof. intros H. unfold _run. rewrite H. reflexivity. Qed.

(** ** Reuse of the cached token *)

(** C2, as the code has it: with a token stored, [_run] reuses it without
    provider interaction exactly when [now <= expiresAt]; it starts a
    round-trip, and sends no request yet, exactly when [expiresAt < now]. *)
Theorem cached_token_reused_until_expiry (w : World) (now : Z) (t : string) :
  _accessToken (elem w) = Some t -> t <> "" ->
  (now <= _tokenExpiresAt (elem w) <->
     round_trips (step w (ClickFetch now)) = round_trips w /\
     requests (step w (ClickFetch now)) = (requests w ++ [Some t])%list) /\
  (_tokenExpiresAt (elem w) < now <->
     round_trips (step w (ClickFetch now)) = S (round_trips w) /\
     requests (step w (ClickFetch now)) = requests w).
Proof.
  intros Htok Hne.
  pose proof (needs_authorization_stored (elem w) now t Htok Hne) as Hneeds.
  simpl. destruct (Z.ltb_spec (_tokenExpiresAt (elem w)) now) as [Hlt|Hge].
  - rewrite (_run_authorizes w now Hneeds). unfold round_trips. simpl.
    rewrite length_app. simpl. split; split.
    + lia.
    + intros [Hlen _]. lia.
    + intros _. split; [lia | reflexivity].
    + intros _. exact Hlt.
  - rewrite (_run_reuses w now Hneeds). unfold round_trips. simpl.
    rewrite Htok. split; split.
    + intros _. split; reflexivity.
    + intros _. exact Hge.
    + lia.
    + intros [Hlen _]. lia.
Qed.

Lemma cached_token_reused_until_expiry_witness :
  (3601000 <= _tokenExpiresAt (elem authorized) <->
     round_trips (step authorized (ClickFetch 3601000)) = round_trips authorized /\
     requests (step authorized (ClickFetch 3601000)) = (requests authorized ++ [Some "T"])%list) /\
  (_tokenExpiresAt (elem authorized) < 3601000 <->
     round_trips (step authorized (ClickFetch 3601000)) = S (round_trips authorized) /\
     requests (step authorized (ClickFetch 3601000)) = requests authorized).
Proof.
  apply (cached_token_reused_until_expiry authorized 3601000 "T").
  - reflexivity.
  - discriminate.
Defined.

(** C2 as stated fails at equality: at [now = expiresAt] the cached token is
    sent and no round-trip starts. *)
Lemma token_reused_at_expiry_instant :
  _tokenExpiresAt (elem authorized) = 3601000 /\
  round_trips (step authorized (ClickFetch 3601000)) = round_trips authorized /\
  requests (step authorized (ClickFetch 3601000)) = (requests authorized ++ [Some "T"])%list.
Proof. vm_compute. repeat split. Qed.

(** ** The callbacks of the token client *)

Lemma advance_lookup (from to : RunState) (rs : list RunState) (i : nat) :
  rs !! i = Some from -> advance from to rs !! i = Some to.
Proof.
  intros H. unfold advance. rewrite list_lookup_fmap, H. simpl.
  rewrite decide_True by reflexivity. reflexivity.
Qed.

Lemma reject_frame (c : nat) (err : error) (w : World) :
  elem (reject c err w) = elem w /\
  requests (reject c err w) = requests w /\
  revocations (reject c err w) = revocations w.
Proof.
  unfold reject. destruct (clients w !! c) as [[| |]|]; repeat split.
Qed.

Lemma reject_pending (c : nat) (err : error) (w : World) :
  clients w !! c = Some Pending ->
  clients (reject c err w) = <[c := Rejected err]> (clients w) /\
  runs (reject c err w) = advance (AwaitAuth c) (RunFailed err) (runs w).
Proof. intros H. unfold reject. rewrite H. split; reflexivity. Qed.

Lemma resolve_frame (c : nat) (v : option string) (w : World) :
  elem (resolve c v w) = elem w /\
  revocations (resolve c v w) = revocations w /\
  length (clients (resolve c v w)) = length (clients w).
Proof.
  unfold resolve. destruct (clients w !! c) as [[| |]|]; try (repeat split; fail).
  destruct (resume_authorized _ _ _ _) as [qs rs]. simpl.
  rewrite length_insert. repeat split.
Qed.

Lemma resolve_pending (c : nat) (v : option string) (w : World) :
  clients w !! c = Some Pending ->
  clients (resolve c v w) !! c = Some (Resolved v).
Proof.
  intros H. unfold resolve. rewrite H.
  destruct (resume_authorized _ _ _ _) as [qs rs]. simpl.
  apply list_lookup_insert_eq. apply lookup_lt_is_Some. eauto.
Qed.

Lemma callback_not_granted (c : nat) (response : option TokenResponse) (now : Z) (w : World) :
  granted response = false ->
  callback c response now w =
    with_elem (set_error (Some "Authorization required.") (elem w)) w.
Proof.
  intros H. unfold callback. destruct response as [r|]; [|reflexivity].
  simpl in H. rewrite H. reflexivity.
Qed.

Lemma callback_granted (c : nat) (r : TokenResponse) (now : Z) (w : World) :
  granted (Some r) = true ->
  callback c (Some r) now w =
    resolve c (access_token r)
      (with_elem {| _files := _files (elem w); _accessToken := access_token r;
                    _tokenExpiresAt := now + expires_in r * 1000;
                    _error := None |} w).
Proof. intros H. unfold callback. simpl in H. rewrite H. reflexivity. Qed.

Lemma error_message_cases (type : string) :
  (type = "popup_closed" /\ error_message type = "Authorization required") \/
  (type <> "popup_closed" /\ error_message type = "An unexpected error occurred").
Proof.
  unfold error_message. destruct (String.eqb_spec type "popup_closed"); auto.
Qed.

(** C3, as the code has it: an authorization attempt that ends without a
    grant leaves the stored token, its expiry and the file list as they were,
    stores the message of its reason, and sends no listing request; when the
    end comes through the error callback, the pending promise is rejected and
    the run that awaited it fails with the provider's error. *)
Theorem denial_keeps_credential (w : World) (ev : Event) (message : string) :
  denied w ev message ->
  _accessToken (elem (step w ev)) = _accessToken (elem w) /\
  _tokenExpiresAt (elem (step w ev)) = _tokenExpiresAt (elem w) /\
  _files (elem (step w ev)) = _files (elem w) /\
  _error (elem (step w ev)) = Some message /\
  requests (step w ev) = requests w /\
  (forall c type i,
     ev = ErrorCallback c type ->
     clients w !! c = Some Pending ->
     runs w !! i = Some (AwaitAuth c) ->
     clients (step w ev) !! c = Some (Rejected (ProviderError type)) /\
     runs (step w ev) !! i = Some (RunFailed (ProviderError type))).
Proof.
  intros Hden. destruct Hden as [c response now Hc Hng | c Hc | c type Hc Hty].
  - simpl. rewrite decide_True by exact Hc.
    rewrite (callback_not_granted c response now w Hng). simpl.
    split_and!; try reflexivity. intros ? ? ? Hev. discriminate Hev.
  - simpl. rewrite decide_True by exact Hc. unfold error_callback.
    set (w1 := with_elem (set_error (Some (error_message "popup_closed")) (elem w)) w).
    destruct (reject_frame c (ProviderError "popup_closed") w1) as (He & Hq & _).
    rewrite He, Hq. split_and!; try reflexivity.
    intros c' type' i Hev Hp Hi. injection Hev as <- <-.
    destruct (reject_pending c (ProviderError "popup_closed") w1 Hp) as [Hcl Hru].
    rewrite Hcl, Hru. split.
    + apply list_lookup_insert_eq. exact Hc.
    + apply advance_lookup. exact Hi.
  - simpl. rewrite decide_True by exact Hc. unfold error_callback.
    destruct (error_message_cases type) as [[Heq _] | [_ Hmsg]]; [contradiction|].
    set (w1 := with_elem (set_error (Some (error_message type)) (elem w)) w).
    destruct (reject_frame c (ProviderError type) w1) as (He & Hq & _).
    rewrite He, Hq. split_and!; try reflexivity.
    + simpl. rewrite Hmsg. reflexivity.
    + intros c' type' i Hev Hp Hi. injection Hev as <- <-.
      destruct (reject_pending c (ProviderError type) w1 Hp) as [Hcl Hru].
      rewrite Hcl, Hru. split.
      * apply list_lookup_insert_eq. exact Hc.
      * apply advance_lookup. exact Hi.
Qed.

Lemma denial_keeps_credential_witness :
  let w := reauthorizing in
  let ev := ErrorCallback 1 "popup_closed" in
  _accessToken (elem (step w ev)) = _accessToken (elem w) /\
  _tokenExpiresAt (elem (step w ev)) = _tokenExpiresAt (elem w) /\
  _files (elem (step w ev)) = _files (elem w) /\
  _error (elem (step w ev)) = Some "Authorization required" /\
  requests (step w ev) = requests w /\
  (forall c type i,
     ev = ErrorCallback c type ->
     clients w !! c = Some Pending ->
     runs w !! i = Some (AwaitAuth c) ->
     clients (step w ev) !! c = Some (Rejected (ProviderError type)) /\
     runs (step w ev) !! i = Some (RunFailed (ProviderError type))).
Proof.
  apply (denial_keeps_credential reauthorizing (ErrorCallback 1 "popup_closed")
           "Authorization required").
  apply user_cancelled. vm_compute. lia.
Defined.

(** C3 as stated fails: the popup of a re-authorization is closed by the user
    while an expired token is stored; the token and its expiry stay. *)
Lemma denial_does_not_clear_credential :
  let w := step reauthorizing (ErrorCallback 1 "popup_closed") in
  _accessToken (elem reauthorizing) = Some "T" /\
  _accessToken (elem w) = Some "T" /\
  _tokenExpiresAt (elem w) = 3601000 /\
  _error (elem w) = Some "Authorization required" /\
  runs w = [AwaitFetch 0; RunFailed (ProviderError "popup_closed")].
Proof. vm_compute. repeat split. Qed.

(** A callback without a grant settles nothing: the promise of
    [_requestAuthorization] and every run stay as they were. *)
Lemma callback_not_granted_settles_nothing
    (c : nat) (response : option TokenResponse) (now : Z) (w : World) :
  granted response = false ->
  clients (step w (TokenCallback c response now)) = clients w /\
  runs (step w (TokenCallback c response now)) = runs w.
Proof.
  intros H. simpl. destruct (decide (c < length (clients w))%nat); [|split; reflexivity].
  rewrite (callback_not_granted c response now w H). split; reflexivity.
Qed.

(** C8 on the code: the provider answers the only popup with a response that
    carries no token (and, second, with a token but without the scope).  The
    callback stores the message and returns; the promise of
    [_requestAuthorization] is still pending and the run still awaits it,
    whereas the error callback on the same world rejects it. *)
Theorem denied_callback_never_settles :
  let w := exec start [ClickFetch 1000] in
  let no_token := Some {| access_token := None; expires_in := 0; scope := [] |} in
  let no_scope := Some {| access_token := Some "T"; expires_in := 3600; scope := ["openid"] |} in
  clients w = [Pending] /\ runs w = [AwaitAuth 0] /\
  clients (step w (TokenCallback 0 no_token 2000)) = [Pending] /\
  runs (step w (TokenCallback 0 no_token 2000)) = [AwaitAuth 0] /\
  _error (elem (step w (TokenCallback 0 no_token 2000))) = Some "Authorization required." /\
  clients (step w (TokenCallback 0 no_scope 2000)) = [Pending] /\
  runs (step w (TokenCallback 0 no_scope 2000)) = [AwaitAuth 0] /\
  clients (step w (TokenCallback 0 None 2000)) = [Pending] /\
  clients (step w (ErrorCallback 0 "popup_closed")) = [Rejected (ProviderError "popup_closed")] /\
  runs (step w (ErrorCallback 0 "popup_closed")) = [RunFailed (ProviderError "popup_closed")].
Proof. vm_compute. repeat split. Qed.

(** ** A grant *)

(** C9: a grant of token [T] for [expires_in] seconds, delivered at time [t]
    to a pending authorization, stores [T] with expiry [t + expires_in * 1000],
    clears the error and resolves the promise with [T]; a fetch at time [t]
    sends [T] without a round-trip, and a fetch one millisecond after the
    expiry starts a round-trip. *)
Theorem grant_stores_credential
    (w : World) (c : nat) (r : TokenResponse) (t : Z) (T : string) :
  clients w !! c = Some Pending ->
  access_token r = Some T -> T <> "" ->
  hasGrantedAnyScope r SCOPE = true ->
  0 <= expires_in r ->
  let w' := step w (TokenCallback c (Some r) t) in
  _accessToken (elem w') = Some T /\
  _tokenExpiresAt (elem w') = t + expires_in r * 1000 /\
  _error (elem w') = None /\
  clients w' !! c = Some (Resolved (Some T)) /\
  round_trips w' = round_trips w /\
  round_trips (step w' (ClickFetch t)) = round_trips w' /\
  requests (step w' (ClickFetch t)) = (requests w' ++ [Some T])%list /\
  round_trips (step w' (ClickFetch (t + expires_in r * 1000 + 1))) = S (round_trips w').
Proof.
  intros Hp Htok Hne Hscope Hexp w'.
  assert (Hc : (c < length (clients w))%nat) by (apply lookup_lt_is_Some; eauto).
  assert (Hg : granted (Some r) = true).
  { simpl. rewrite Htok, (truthy_string_Some T Hne), Hscope. reflexivity. }
  assert (Hw' : w' = resolve c (Some T)
                       (with_elem {| _files := _files (elem w); _accessToken := Some T;
                                     _tokenExpiresAt := t + expires_in r * 1000;
                                     _error := None |} w)).
  { unfold w'. cbn [step]. rewrite decide_True by exact Hc.
    rewrite (callback_granted c r t w Hg), Htok. reflexivity. }
  set (w1 := with_elem _ w) in Hw'.
  destruct (resolve_frame c (Some T) w1) as (He & _ & Hlen).
  assert (Helem : elem w' = elem w1) by (rewrite Hw'; exact He).
  assert (HT : _accessToken (elem w') = Some T) by (rewrite Helem; reflexivity).
  assert (HE : _tokenExpiresAt (elem w') = t + expires_in r * 1000)
    by (rewrite Helem; reflexivity).
  split_and!.
  - exact HT.
  - exact HE.
  - rewrite Helem. reflexivity.
  - rewrite Hw'. apply resolve_pending. exact Hp.
  - unfold round_trips. rewrite Hw', Hlen. reflexivity.
  - simpl. rewrite _run_reuses; [reflexivity|].
    rewrite (needs_authorization_stored _ t T HT Hne), HE. apply Z.ltb_ge. lia.
  - simpl. rewrite _run_reuses; [simpl; rewrite HT; reflexivity|].
    rewrite (needs_authorization_stored _ t T HT Hne), HE. apply Z.ltb_ge. lia.
  - simpl. rewrite _run_authorizes.
    + unfold round_trips. simpl. rewrite length_app. simpl. lia.
    + rewrite (needs_authorization_stored _ _ T HT Hne), HE. apply Z.ltb_lt. lia.
Qed.

Lemma grant_stores_credential_witness :
  let w := exec start [ClickFetch 1000] in
  let r := {| access_token := Some "T"; expires_in := 3600; scope := [SCOPE] |} in
  let w' := step w (TokenCallback 0 (Some r) 1000) in
  _accessToken (elem w') = Some "T" /\
  _tokenExpiresAt (elem w') = 1000 + 3600 * 1000 /\
  _error (elem w') = None /\
  clients w' !! 0%nat = Some (Resolved (Some "T")) /\
  round_trips w' = round_trips w /\
  round_trips (step w' (ClickFetch 1000)) = round_trips w' /\
  requests (step w' (ClickFetch 1000)) = (requests w' ++ [Some "T"])%list /\
  round_trips (step w' (ClickFetch (1000 + 3600 * 1000 + 1))) = S (round_trips w').
Proof.
  apply (grant_stores_credential (exec start [ClickFetch 1000]) 0
           {| access_token := Some "T"; expires_in := 3600; scope := [SCOPE] |}
           1000 "T").
  - reflexivity.
  - reflexivity.
  - discriminate.
  - reflexivity.
  - simpl. lia.
Defined.

(** ** The pairing of token and expiry *)

Lemma _revoke_elem (w : World) : elem (_revoke w) = elem w.
Proof.
  unfold _revoke. destruct (_accessToken (elem w)) as [t|]; [|reflexivity].
  destruct (truthy_string (Some t)); reflexivity.
Qed.

(** What one step can do to the credential: nothing, clear the token alone
    (revocation confirmed), or store token and expiry together (grant). *)
Lemma step_credential (w : World) (ev : Event) :
  (_accessToken (elem (step w ev)) = _accessToken (elem w) /\
   _tokenExpiresAt (elem (step w ev)) = _tokenExpiresAt (elem w)) \/
  (_accessToken (elem (step w ev)) = None /\
   _tokenExpiresAt (elem (step w ev)) = _tokenExpiresAt (elem w) /\
   exists i, ev = RevokeCallback i) \/
  (exists c r now,
     ev = TokenCallback c (Some r) now /\
     granted (Some r) = true /\
     _accessToken (elem (step w ev)) = access_token r /\
     _tokenExpiresAt (elem (step w ev)) = now + expires_in r * 1000).
Proof.
  destruct ev as [now| |c response now|c type|i|q res|q]; cbn [step].
  - left. unfold _run. destruct (needs_authorization _ _); split; reflexivity.
  - left. rewrite _revoke_elem. split; reflexivity.
  - destruct (decide (c < length (clients w))%nat); [|left; split; reflexivity].
    destruct (granted response) eqn:Hg.
    + destruct response as [r|]; [|discriminate Hg].
      right. right. exists c, r, now.
      rewrite (callback_granted c r now w Hg).
      match goal with |- context [resolve c ?v ?w1] =>
        destruct (resolve_frame c v w1) as (He & _ & _); rewrite He end.
      repeat split; assumption.
    + left. rewrite (callback_not_granted c response now w Hg). split; reflexivity.
  - left. destruct (decide (c < length (clients w))%nat); [|split; reflexivity].
    unfold error_callback.
    match goal with |- context [reject c ?err ?w1] =>
      destruct (reject_frame c err w1) as (He & _ & _); rewrite He end.
    split; reflexivity.
  - destruct (decide (i < length (revocations w))%nat); [|left; split; reflexivity].
    right. left. repeat split. eauto.
  - left. unfold fetch_settled. destruct (decide _); [|split; reflexivity].
    destruct (fetchFileList res); split; reflexivity.
  - left. unfold fetch_settled. destruct (decide _); split; reflexivity.
Qed.

Lemma granted_token_truthy (r : TokenResponse) :
  granted (Some r) = true -> exists T, access_token r = Some T /\ T <> "".
Proof.
  simpl. intros H. apply andb_prop in H as [H _]. apply truthy_string_inv. exact H.
Qed.

(** The invariant behind C5. *)
Lemma exec_token_expiry (evs : list Event) (w : World) :
  Forall clock_sane evs ->
  (forall T, _accessToken (elem w) = Some T -> T <> "" /\ 0 < _tokenExpiresAt (elem w)) ->
  forall T, _accessToken (elem (exec w evs)) = Some T ->
            T <> "" /\ 0 < _tokenExpiresAt (elem (exec w evs)).
Proof.
  intros Hsane. revert w. induction Hsane as [|ev evs Hev _ IH]; intros w Hinv.
  - exact Hinv.
  - simpl. apply IH. intros T HT.
    destruct (step_credential w ev)
      as [[Htok Hexp] | [[Htok _] | (c & r & now & -> & Hg & Htok & Hexp)]].
    + rewrite Hexp. apply Hinv. rewrite <- Htok. exact HT.
    + rewrite Htok in HT. discriminate HT.
    + destruct (granted_token_truthy r Hg) as (T' & HT' & Hne).
      rewrite Htok, HT' in HT. injection HT as <-.
      rewrite Hexp. simpl in Hev. split; [exact Hne | lia].
Qed.

(** C5, as the code has it: in every state reached from the constructor by
    fetch triggers, callbacks and revocations with real clock readings, a
    stored token is non-empty and comes with a positive expiry; and whenever a
    token is stored after a step, either token and expiry are those of before
    the step or both were written by the same granting callback.  (The
    converse does not hold: a confirmed revocation leaves the expiry.) *)
Theorem token_present_implies_expiry_set (evs : list Event) (ev : Event) :
  Forall clock_sane evs ->
  let w := exec start evs in
  (forall T, _accessToken (elem w) = Some T ->
             T <> "" /\ 0 < _tokenExpiresAt (elem w)) /\
  (forall T, _accessToken (elem (step w ev)) = Some T ->
     (_accessToken (elem w) = Some T /\
      _tokenExpiresAt (elem (step w ev)) = _tokenExpiresAt (elem w)) \/
     (exists c r now,
        ev = TokenCallback c (Some r) now /\ access_token r = Some T /\
        _tokenExpiresAt (elem (step w ev)) = now + expires_in r * 1000)).
Proof.
  intros Hsane w. split.
  - apply (exec_token_expiry evs start Hsane). simpl. discriminate.
  - intros T HT.
    destruct (step_credential w ev)
      as [[Htok Hexp] | [[Htok _] | (c & r & now & Hev & _ & Htok & Hexp)]].
    + left. rewrite <- Htok. split; assumption.
    + rewrite Htok in HT. discriminate HT.
    + right. exists c, r, now. rewrite <- Htok. repeat split; assumption.
Qed.

Lemma token_present_implies_expiry_set_witness :
  let evs := [ClickFetch 1000; TokenCallback 0 (drive_readonly "T" 3600) 1000] in
  let ev := TokenCallback 0 (drive_readonly "U" 60) 2000 in
  let w := exec start evs in
  (forall T, _accessToken (elem w) = Some T ->
             T <> "" /\ 0 < _tokenExpiresAt (elem w)) /\
  (forall T, _accessToken (elem (step w ev)) = Some T ->
     (_accessToken (elem w) = Some T /\
      _tokenExpiresAt (elem (step w ev)) = _tokenExpiresAt (elem w)) \/
     (exists c r now,
        ev = TokenCallback c (Some r) now /\ access_token r = Some T /\
        _tokenExpiresAt (elem (step w ev)) = now + expires_in r * 1000)).
Proof.
  apply (token_present_implies_expiry_set
           [ClickFetch 1000; TokenCallback 0 (drive_readonly "T" 3600) 1000]
           (TokenCallback 0 (drive_readonly "U" 60) 2000)).
  repeat constructor; simpl; lia.
Defined.

(** C5 as stated fails: after a grant and a confirmed revocation the token is
    absent while [_tokenExpiresAt] is not the sentinel. *)
Lemma token_absent_with_expiry_set :
  let e := elem (exec start [ClickFetch 1000; TokenCallback 0 (drive_readonly "T" 3600) 1000;
                             ClickRevoke; RevokeCallback 0]) in
  ~ (_accessToken e <> None <-> _tokenExpiresAt e <> 0).
Proof.
  vm_compute. intros [_ H]. apply H; [discriminate | reflexivity].
Qed.

(** ** The listing call *)

Lemma fetchFileList_failure_status (res : Response) :
  400 <= status res -> fetchFileList res = Throw (Error "Unable to fetch files").
Proof.
  intros H. unfold fetchFileList.
  destruct (Z.geb_spec (status res) 400); [reflexivity | lia].
Qed.

Lemma fetchFileList_success_status (res : Response) (body : value) :
  status res < 400 -> json res = Some body ->
  fetchFileList res = get body "files".
Proof.
  intros H Hbody. unfold fetchFileList.
  destruct (Z.geb_spec (status res) 400); [lia|]. rewrite Hbody. reflexivity.
Qed.

(** [files.map(file => file.name)] on files none of which is [undefined] or
    [null]: one name per file, in the order of the files. *)
Lemma names_in_order (files : list value) :
  Forall (fun file => file <> Undefined /\ file <> Null) files ->
  exists names,
    map_throwing (fun file => get file "name") files = Return names /\
    Forall2 (fun file name => get file "name" = Return name) files names.
Proof.
  induction 1 as [|file files [Hu Hn] _ (names & Hmap & Hall)].
  - exists []. split; [reflexivity | constructor].
  - assert (exists name, get file "name" = Return name) as [name Hname].
    { destruct file; simpl; eauto; contradiction. }
    exists (name :: names). split.
    + simpl. rewrite Hname. simpl. rewrite Hmap. reflexivity.
    + constructor; assumption.
Qed.

(** C6, as the code has it: every status from 400 on makes [fetchFileList]
    throw the one error ['Unable to fetch files'], whatever the status and the
    body; a response below 400 whose body has an array under [files] returns
    that array as it is, and [filesTemplate] renders the [name] of each of its
    files in the order given. *)
Theorem listing_outcome (res : Response) :
  (400 <= status res ->
     fetchFileList res = Throw (Error "Unable to fetch files")) /\
  (forall fields files,
     status res < 400 ->
     json res = Some (Obj fields) ->
     assoc "files" fields = Arr files ->
     fetchFileList res = Return (Arr files) /\
     (files <> [] ->
      Forall (fun file => file <> Undefined /\ file <> Null) files ->
      forall e, _files e = Arr files ->
      exists names,
        filesTemplate e = Return (Some names) /\
        Forall2 (fun file name => get file "name" = Return name) files names)).
Proof.
  split.
  - apply fetchFileList_failure_status.
  - intros fields files Hst Hbody Hfiles. split.
    + rewrite (fetchFileList_success_status res (Obj fields) Hst Hbody).
      simpl. rewrite Hfiles. reflexivity.
    + intros Hne Hall e He.
      destruct (names_in_order files Hall) as (names & Hmap & Hnames).
      exists names. split; [|exact Hnames].
      unfold filesTemplate. rewrite He. simpl.
      destruct files as [|file files']; [contradiction|].
      simpl length. rewrite Hmap. reflexivity.
Qed.

Lemma listing_outcome_witness :
  fetchFileList {| status := 401; json := Some (Obj []) |}
    = Throw (Error "Unable to fetch files") /\
  fetchFileList (listing ["a.txt"; "b.txt"])
    = Return (Arr [file "a.txt"; file "b.txt"]) /\
  exists names,
    filesTemplate (set_files (Arr [file "a.txt"; file "b.txt"]) constructor)
      = Return (Some names) /\
    Forall2 (fun f name => get f "name" = Return name)
      [file "a.txt"; file "b.txt"] names.
Proof.
  split.
  - apply (proj1 (listing_outcome {| status := 401; json := Some (Obj []) |})).
    simpl. lia.
  - destruct (proj2 (listing_outcome (listing ["a.txt"; "b.txt"]))
                [("kind", Str "drive#fileList");
                 ("files", Arr [file "a.txt"; file "b.txt"])]
                [file "a.txt"; file "b.txt"]) as [Hret Hnames].
    + simpl. lia.
    + reflexivity.
    + reflexivity.
    + split; [exact Hret|].
      apply Hnames.
      * discriminate.
      * repeat constructor; discriminate.
      * reflexivity.
Defined.

(** C6 as stated fails: statuses 401, 403 and 500 give the very same error;
    nothing tells an authorization failure from a server failure. *)
Lemma unauthorized_not_distinguished :
  fetchFileList {| status := 401; json := None |} = Throw (Error "Unable to fetch files") /\
  fetchFileList {| status := 403; json := None |} = Throw (Error "Unable to fetch files") /\
  fetchFileList {| status := 500; json := None |} = Throw (Error "Unable to fetch files") /\
  fetchFileList {| status := 401; json := None |} = fetchFileList {| status := 500; json := None |}.
Proof. vm_compute. repeat split. Qed.

(** ** Completion of the listing call *)

Lemma fetch_settled_return (q : nat) (files : value) (w : World) :
  AwaitFetch q ∈ runs w ->
  fetch_settled q (Return files) w =
    with_runs (advance (AwaitFetch q) RunDone (runs w))
      (with_elem (set_files files (elem w)) w).
Proof. intros H. unfold fetch_settled. rewrite decide_True by exact H. reflexivity. Qed.

Lemma fetch_settled_throw (q : nat) (e : error) (w : World) :
  AwaitFetch q ∈ runs w ->
  fetch_settled q (Throw e) w =
    with_runs (advance (AwaitFetch q) (RunFailed e) (runs w)) w.
Proof. intros H. unfold fetch_settled. rewrite decide_True by exact H. reflexivity. Qed.

(** A field that the body does not have reads as [undefined]. *)
Lemma assoc_absent (k : string) (fields : list (string * value)) :
  k ∉ map fst fields -> assoc k fields = Undefined.
Proof.
  induction fields as [|[k' v] fields IH]; [reflexivity|].
  simpl. intros Hnot. apply not_elem_of_cons in Hnot as [Hne Hnot].
  destruct (String.eqb_spec k k'); [contradiction | auto].
Qed.

(** C7, as the code has it: [fetchFileList] does not look at the collection.
    For a response below 400 whose body is an object, it returns whatever the
    body has under [files], [undefined] when the field is absent, and the run
    that awaited it stores that value in [_files] and completes. *)
Theorem listing_body_stored_unchecked
    (w : World) (q i : nat) (res : Response) (fields : list (string * value)) :
  status res < 400 ->
  json res = Some (Obj fields) ->
  runs w !! i = Some (AwaitFetch q) ->
  fetchFileList res = Return (assoc "files" fields) /\
  _files (elem (step w (FetchResponse q res))) = assoc "files" fields /\
  runs (step w (FetchResponse q res)) !! i = Some RunDone /\
  ("files" ∉ map fst fields ->
   _files (elem (step w (FetchResponse q res))) = Undefined).
Proof.
  intros Hst Hbody Hi.
  assert (Hret : fetchFileList res = Return (assoc "files" fields)).
  { rewrite (fetchFileList_success_status res (Obj fields) Hst Hbody). reflexivity. }
  assert (Hin : AwaitFetch q ∈ runs w) by (eapply list_elem_of_lookup_2; exact Hi).
  cbn [step]. rewrite Hret, (fetch_settled_return q _ w Hin). simpl.
  split_and!; try reflexivity.
  - apply advance_lookup. exact Hi.
  - apply assoc_absent.
Qed.

Lemma listing_body_stored_unchecked_witness :
  let res := {| status := 200; json := Some (Obj [("kind", Str "drive#fileList")]) |} in
  fetchFileList res = Return (assoc "files" [("kind", Str "drive#fileList")]) /\
  _files (elem (step authorized (FetchResponse 0 res)))
    = assoc "files" [("kind", Str "drive#fileList")] /\
  runs (step authorized (FetchResponse 0 res)) !! 0%nat = Some RunDone /\
  ("files" ∉ map fst [("kind", Str "drive#fileList")] ->
   _files (elem (step authorized (FetchResponse 0 res))) = Undefined).
Proof.
  apply (listing_body_stored_unchecked authorized 0 0
           {| status := 200; json := Some (Obj [("kind", Str "drive#fileList")]) |}
           [("kind", Str "drive#fileList")]).
  - simpl. lia.
  - reflexivity.
  - reflexivity.
Defined.

(** C7 as stated fails: a 200 response whose body has no [files] makes
    [fetchFileList] return [undefined], not throw; the run stores [undefined]
    in [_files], and the next [filesTemplate] throws a [TypeError].  A
    [files] that is a string is stored just the same. *)
Lemma absent_collection_reaches_state :
  let res := {| status := 200; json := Some (Obj [("kind", Str "drive#fileList")]) |} in
  let bad := {| status := 200; json := Some (Obj [("files", Str "none")]) |} in
  fetchFileList res = Return Undefined /\
  _files (elem (step authorized (FetchResponse 0 res))) = Undefined /\
  runs (step authorized (FetchResponse 0 res)) = [RunDone] /\
  filesTemplate (elem (step authorized (FetchResponse 0 res))) = Throw TypeError /\
  _files (elem (step authorized (FetchResponse 0 bad))) = Str "none" /\
  filesTemplate (elem (step authorized (FetchResponse 0 bad))) = Throw TypeError.
Proof. vm_compute. repeat split. Qed.

(** ** What the continuations do to the run table *)

Lemma advance_length (from to : RunState) (rs : list RunState) :
  length (advance from to rs) = length rs.
Proof. unfold advance. apply length_fmap. Qed.

Lemma advance_other (from to r : RunState) (rs : list RunState) :
  r <> from -> r ∈ rs -> r ∈ advance from to rs.
Proof.
  intros Hne Hin. unfold advance. apply list_elem_of_fmap. exists r. split; [|exact Hin].
  rewrite decide_False by exact Hne. reflexivity.
Qed.

Lemma advance_awaiting (from to : RunState) (rs : list RunState) :
  is_AwaitAuth to = false ->
  (awaiting_authorization (advance from to rs) <= awaiting_authorization rs)%nat.
Proof.
  intros Hto. unfold awaiting_authorization, advance.
  induction rs as [|r rs IH]; [reflexivity|].
  simpl in *. destruct (decide (r = from)); simpl.
  - rewrite Hto. destruct (is_AwaitAuth r); simpl; lia.
  - destruct (is_AwaitAuth r); simpl; lia.
Qed.

Lemma resume_authorized_length (c : nat) (tok : option string)
    (rs : list RunState) (qs : list (option string)) :
  length (resume_authorized c tok qs rs).2 = length rs.
Proof.
  revert qs. induction rs as [|r rs IH]; intros qs; [reflexivity|].
  simpl. destruct (decide (r = AwaitAuth c)).
  - specialize (IH (qs ++ [tok])%list).
    destruct (resume_authorized c tok (qs ++ [tok]) rs) as [qs' rs']. simpl in *. lia.
  - specialize (IH qs).
    destruct (resume_authorized c tok qs rs) as [qs' rs']. simpl in *. lia.
Qed.

(** The requests a resumption adds all carry the token it was given. *)
Lemma resume_authorized_requests (c : nat) (tok : option string)
    (rs : list RunState) (qs : list (option string)) :
  exists k, (resume_authorized c tok qs rs).1 = (qs ++ replicate k tok)%list.
Proof.
  revert qs. induction rs as [|r rs IH]; intros qs.
  - exists 0%nat. simpl. rewrite app_nil_r. reflexivity.
  - simpl. destruct (decide (r = AwaitAuth c)).
    + destruct (IH (qs ++ [tok])%list) as [k Hk].
      destruct (resume_authorized c tok (qs ++ [tok]) rs) as [qs' rs']. simpl in *.
      exists (S k). rewrite Hk, <- app_assoc. reflexivity.
    + destruct (IH qs) as [k Hk].
      destruct (resume_authorized c tok qs rs) as [qs' rs']. simpl in *.
      exists k. exact Hk.
Qed.

(** Every request a resumption adds takes one run out of [AwaitAuth]. *)
Lemma resume_authorized_counts (c : nat) (tok : option string)
    (rs : list RunState) (qs : list (option string)) :
  (length (resume_authorized c tok qs rs).1
     + awaiting_authorization (resume_authorized c tok qs rs).2
   = length qs + awaiting_authorization rs)%nat.
Proof.
  unfold awaiting_authorization.
  revert qs. induction rs as [|r rs IH]; intros qs; [simpl; lia|].
  simpl. destruct (decide (r = AwaitAuth c)) as [->|Hne].
  - specialize (IH (qs ++ [tok])%list). rewrite length_app in IH.
    destruct (resume_authorized c tok (qs ++ [tok]) rs) as [qs' rs']. simpl in *. lia.
  - specialize (IH qs).
    destruct (resume_authorized c tok qs rs) as [qs' rs']. simpl in *.
    destruct (is_AwaitAuth r); simpl; lia.
Qed.

(** A run that awaited client [c] is given a request of its own, and that
    request carries the token. *)
Lemma resume_authorized_lookup (c : nat) (tok : option string)
    (rs : list RunState) (qs : list (option string)) (i : nat) :
  rs !! i = Some (AwaitAuth c) ->
  exists q,
    (resume_authorized c tok qs rs).2 !! i = Some (AwaitFetch q) /\
    (resume_authorized c tok qs rs).1 !! q = Some tok /\
    (length qs <= q)%nat.
Proof.
  revert qs i. induction rs as [|r rs IH]; intros qs i Hi; [discriminate Hi|].
  simpl. destruct i as [|i].
  - simpl in Hi. injection Hi as ->. rewrite decide_True by reflexivity.
    destruct (resume_authorized_requests c tok rs (qs ++ [tok])%list) as [k Hk].
    destruct (resume_authorized c tok (qs ++ [tok]) rs) as [qs' rs']. simpl in *.
    exists (length qs). split; [reflexivity|]. split; [|lia].
    rewrite Hk, <- app_assoc. rewrite lookup_app_r by lia.
    replace (length qs - length qs)%nat with 0%nat by lia. reflexivity.
  - simpl in Hi. destruct (decide (r = AwaitAuth c)).
    + destruct (IH (qs ++ [tok])%list i Hi) as (q & Hr & Hq & Hle).
      rewrite length_app in Hle. simpl in Hle.
      destruct (resume_authorized c tok (qs ++ [tok]) rs) as [qs' rs']. simpl in *.
      exists q. repeat split; [assumption | assumption | lia].
    + destruct (IH qs i Hi) as (q & Hr & Hq & Hle).
      destruct (resume_authorized c tok qs rs) as [qs' rs']. simpl in *.
      exists q. repeat split; assumption.
Qed.

Lemma resolve_pending_world (c : nat) (v : option string) (w : World) :
  clients w !! c = Some Pending ->
  resolve c v w =
    {| elem := elem w;
       clients := <[c := Resolved v]> (clients w);
       requests := (resume_authorized c (_accessToken (elem w)) (requests w) (runs w)).1;
       revocations := revocations w;
       runs := (resume_authorized c (_accessToken (elem w)) (requests w) (runs w)).2 |}.
Proof.
  intros H. unfold resolve. rewrite H.
  destruct (resume_authorized _ _ _ _) as [qs rs]. reflexivity.
Qed.

Lemma resolve_settled (c : nat) (v : option string) (w : World) :
  clients w !! c <> Some Pending -> resolve c v w = w.
Proof.
  intros H. unfold resolve. destruct (clients w !! c) as [[| |]|]; try reflexivity.
  contradiction.
Qed.

Lemma reject_settled (c : nat) (err : error) (w : World) :
  clients w !! c <> Some Pending -> reject c err w = w.
Proof.
  intros H. unfold reject. destruct (clients w !! c) as [[| |]|]; try reflexivity.
  contradiction.
Qed.

(** ** Who writes the file list and the error *)

(** What one step can do to [_files]. *)
Lemma step_files (w : World) (ev : Event) :
  _files (elem (step w ev)) = _files (elem w) \/
  (exists i, ev = RevokeCallback i /\ (i < length (revocations w))%nat /\
             _files (elem (step w ev)) = Arr []) \/
  (exists q res v, ev = FetchResponse q res /\ fetchFileList res = Return v /\
                   AwaitFetch q ∈ runs w /\ _files (elem (step w ev)) = v).
Proof.
  destruct ev as [now| |c response now|c type|i|q res|q]; cbn [step].
  - left. unfold _run. destruct (needs_authorization _ _); reflexivity.
  - left. rewrite _revoke_elem. reflexivity.
  - left. destruct (decide (c < length (clients w))%nat); [|reflexivity].
    destruct (granted response) eqn:Hg.
    + destruct response as [r|]; [|discriminate Hg].
      rewrite (callback_granted c r now w Hg).
      match goal with |- context [resolve c ?v ?w1] =>
        destruct (resolve_frame c v w1) as (He & _ & _); rewrite He end.
      reflexivity.
    + rewrite (callback_not_granted c response now w Hg). reflexivity.
  - left. destruct (decide (c < length (clients w))%nat); [|reflexivity].
    unfold error_callback.
    match goal with |- context [reject c ?err ?w1] =>
      destruct (reject_frame c err w1) as (He & _ & _); rewrite He end.
    reflexivity.
  - destruct (decide (i < length (revocations w))%nat) as [Hi|]; [|left; reflexivity].
    right. left. exists i. repeat split. exact Hi.
  - unfold fetch_settled.
    destruct (decide (AwaitFetch q ∈ runs w)) as [Hin|]; [|left; reflexivity].
    destruct (fetchFileList res) as [v|err] eqn:Hres; [|left; reflexivity].
    right. right. exists q, res, v. repeat split; assumption.
  - left. unfold fetch_settled. destruct (decide _); reflexivity.
Qed.

(** X1: [_files] is written by two events only: the confirmation of a revocation
    (to the empty array) and a listing response for which [fetchFileList]
    returns, awaited by a run (to the returned value). *)
Theorem files_written_only_by_listing_and_revoke (w : World) (ev : Event) :
  _files (elem (step w ev)) <> _files (elem w) ->
  (exists i, ev = RevokeCallback i /\ (i < length (revocations w))%nat /\
             _files (elem (step w ev)) = Arr []) \/
  (exists q res v, ev = FetchResponse q res /\ fetchFileList res = Return v /\
                   AwaitFetch q ∈ runs w /\ _files (elem (step w ev)) = v).
Proof.
  intros Hch. destruct (step_files w ev) as [Heq | [H | H]].
  - contradiction.
  - left. exact H.
  - right. exact H.
Qed.

Lemma files_written_only_by_listing_and_revoke_witness :
  let ev := FetchResponse 0 (listing ["a.txt"]) in
  (exists i, ev = RevokeCallback i /\ (i < length (revocations authorized))%nat /\
             _files (elem (step authorized ev)) = Arr []) \/
  (exists q res v, ev = FetchResponse q res /\ fetchFileList res = Return v /\
                   AwaitFetch q ∈ runs authorized /\
                   _files (elem (step authorized ev)) = v).
Proof.
  apply (files_written_only_by_listing_and_revoke authorized
           (FetchResponse 0 (listing ["a.txt"]))).
  vm_compute. discriminate.
Defined.

(** What one step can do to [_error]: nothing, clear it (a grant), or store
    one of the three messages (a callback without grant, an error callback). *)
Lemma step_error (w : World) (ev : Event) :
  _error (elem (step w ev)) = _error (elem w) \/
  (exists c response now, ev = TokenCallback c response now /\
     (_error (elem (step w ev)) = None \/
      _error (elem (step w ev)) = Some "Authorization required.")) \/
  (exists c type, ev = ErrorCallback c type /\
     _error (elem (step w ev)) = Some (error_message type)).
Proof.
  destruct ev as [now| |c response now|c type|i|q res|q]; cbn [step].
  - left. unfold _run. destruct (needs_authorization _ _); reflexivity.
  - left. rewrite _revoke_elem. reflexivity.
  - destruct (decide (c < length (clients w))%nat); [|left; reflexivity].
    right. left. exists c, response, now. split; [reflexivity|].
    destruct (granted response) eqn:Hg.
    + destruct response as [r|]; [|discriminate Hg].
      rewrite (callback_granted c r now w Hg).
      match goal with |- context [resolve c ?v ?w1] =>
        destruct (resolve_frame c v w1) as (He & _ & _); rewrite He end.
      left. reflexivity.
    + rewrite (callback_not_granted c response now w Hg). right. reflexivity.
  - destruct (decide (c < length (clients w))%nat); [|left; reflexivity].
    right. right. exists c, type. split; [reflexivity|].
    unfold error_callback.
    match goal with |- context [reject c ?err ?w1] =>
      destruct (reject_frame c err w1) as (He & _ & _); rewrite He end.
    reflexivity.
  - left. destruct (decide _); reflexivity.
  - left. unfold fetch_settled. destruct (decide _); [|reflexivity].
    destruct (fetchFileList res); reflexivity.
  - left. unfold fetch_settled. destruct (decide _); reflexivity.
Qed.

(** X2: A listing that fails shows no message: no fetch click, revocation or
    listing outcome (response of any status, or none at all) touches
    [_error]; only the two callbacks of the token client write it. *)
Theorem error_written_only_by_token_client (w : World) (ev : Event) :
  _error (elem (step w ev)) <> _error (elem w) ->
  exists c,
    (exists response now, ev = TokenCallback c response now) \/
    (exists type, ev = ErrorCallback c type).
Proof.
  intros Hch.
  destruct (step_error w ev)
    as [Heq | [(c & response & now & -> & _) | (c & type & -> & _)]].
  - contradiction.
  - exists c. left. eauto.
  - exists c. right. eauto.
Qed.

Lemma error_written_only_by_token_client_witness :
  exists c,
    (exists response now, ErrorCallback 1 "popup_closed" = TokenCallback c response now) \/
    (exists type, ErrorCallback 1 "popup_closed" = ErrorCallback c type).
Proof.
  apply (error_written_only_by_token_client reauthorizing (ErrorCallback 1 "popup_closed")).
  vm_compute. discriminate.
Defined.

Lemma error_message_listed (type : string) : error_message type ∈ error_messages.
Proof.
  unfold error_messages.
  destruct (error_message_cases type) as [[_ ->] | [_ ->]];
    rewrite !elem_of_cons; auto.
Qed.

Lemma error_messages_truthy (m : string) :
  m ∈ error_messages -> truthy_string (Some m) = true.
Proof.
  unfold error_messages. intros H.
  repeat (apply elem_of_cons in H as [-> | H]; [reflexivity|]).
  apply elem_of_nil in H. contradiction.
Qed.

Lemma exec_error_values (evs : list Event) (w : World) :
  (_error (elem w) = None \/ exists m, _error (elem w) = Some m /\ m ∈ error_messages) ->
  _error (elem (exec w evs)) = None \/
  exists m, _error (elem (exec w evs)) = Some m /\ m ∈ error_messages.
Proof.
  revert w. induction evs as [|ev evs IH]; intros w Hw; [exact Hw|].
  simpl. apply IH.
  destruct (step_error w ev)
    as [-> | [(c & response & now & _ & [-> | ->]) | (c & type & _ & ->)]].
  - exact Hw.
  - left. reflexivity.
  - right. eexists. split; [reflexivity|]. unfold error_messages.
    rewrite !elem_of_cons. auto.
  - right. eexists. split; [reflexivity|]. apply error_message_listed.
Qed.

(** X3: In every state reached from the constructor, [_error] is [null] or one of
    the three messages of [_requestAuthorization], all non-empty: the error
    box of [errorMessage] is on the page exactly when [_error] is set, and it
    never reports a failed listing. *)
Theorem error_box_shows_authorization_messages (evs : list Event) :
  let e := elem (exec start evs) in
  (_error e = None /\ errorMessage e = None) \/
  (exists m, m ∈ error_messages /\ _error e = Some m /\ errorMessage e = Some (ErrorBox m)).
Proof.
  cbv zeta.
  assert (H0 : _error (elem start) = None \/
               exists m, _error (elem start) = Some m /\ m ∈ error_messages)
    by (left; reflexivity).
  destruct (exec_error_values evs start H0) as [Hnone | (m & Hm & Hin)].
  - left. split; [exact Hnone|]. unfold errorMessage. rewrite Hnone. reflexivity.
  - right. exists m. split; [exact Hin|]. split; [exact Hm|].
    unfold errorMessage. rewrite Hm, (error_messages_truthy m Hin). reflexivity.
Qed.

(** ** The bearer token of the requests *)

Lemma exec_requests_truthy (evs : list Event) (w : World) :
  Forall (fun q => truthy_string q = true) (requests w) ->
  Forall (fun q => truthy_string q = true) (requests (exec w evs)).
Proof.
  revert w. induction evs as [|ev evs IH]; intros w Hw; [exact Hw|].
  simpl. apply IH. clear IH.
  destruct ev as [now| |c response now|c type|i|q res|q]; cbn [step].
  - unfold _run. destruct (needs_authorization (elem w) now) eqn:Hn; simpl; [exact Hw|].
    apply Forall_app. split; [exact Hw|]. constructor; [|constructor].
    unfold needs_authorization in Hn. apply orb_false_elim in Hn as [Hn _].
    apply negb_false_iff in Hn. exact Hn.
  - unfold _revoke. destruct (_accessToken (elem w)) as [t|]; [|exact Hw].
    destruct (truthy_string (Some t)); exact Hw.
  - destruct (decide (c < length (clients w))%nat); [|exact Hw].
    destruct (granted response) eqn:Hg.
    + destruct response as [r|]; [|discriminate Hg].
      rewrite (callback_granted c r now w Hg).
      set (w1 := with_elem _ w).
      destruct (decide (clients w1 !! c = Some Pending)) as [Hp|Hp].
      * rewrite (resolve_pending_world c _ w1 Hp). simpl.
        destruct (resume_authorized_requests c (access_token r) (runs w) (requests w))
          as [k ->].
        apply Forall_app. split; [exact Hw|]. apply Forall_replicate.
        simpl in Hg. apply andb_prop in Hg as [Hg _]. exact Hg.
      * rewrite (resolve_settled c _ w1 Hp). exact Hw.
    + rewrite (callback_not_granted c response now w Hg). exact Hw.
  - destruct (decide (c < length (clients w))%nat); [|exact Hw].
    unfold error_callback.
    match goal with |- context [reject c ?err ?w1] =>
      destruct (reject_frame c err w1) as (_ & Hq & _); rewrite Hq end.
    exact Hw.
  - destruct (decide _); exact Hw.
  - unfold fetch_settled. destruct (decide _); [|exact Hw].
    destruct (fetchFileList res); exact Hw.
  - unfold fetch_settled. destruct (decide _); exact Hw.
Qed.

(** X4: No listing request ever goes out without a token: in every state reached
    from the constructor, each request issued by [fetchFileList] carries a
    non-empty bearer token, never [null] and never the empty string. *)
Theorem requests_always_carry_token (evs : list Event) :
  Forall (fun q => exists T, q = Some T /\ T <> "") (requests (exec start evs)).
Proof.
  eapply Forall_impl.
  - apply (exec_requests_truthy evs start). constructor.
  - intros q Hq. apply truthy_string_inv. exact Hq.
Qed.

(** X5: A grant delivered to a pending authorization resumes the run that
    awaited it: that run sends one new listing request, and the request
    carries the token just granted. *)
Theorem grant_resumes_awaiting_run
    (w : World) (c i : nat) (r : TokenResponse) (t : Z) (T : string) :
  clients w !! c = Some Pending ->
  runs w !! i = Some (AwaitAuth c) ->
  granted (Some r) = true ->
  access_token r = Some T ->
  exists q,
    runs (step w (TokenCallback c (Some r) t)) !! i = Some (AwaitFetch q) /\
    requests (step w (TokenCallback c (Some r) t)) !! q = Some (Some T) /\
    (length (requests w) <= q)%nat.
Proof.
  intros Hp Hi Hg Htok.
  assert (Hc : (c < length (clients w))%nat) by (apply lookup_lt_is_Some; eauto).
  cbn [step]. rewrite decide_True by exact Hc.
  rewrite (callback_granted c r t w Hg).
  set (w1 := with_elem _ w).
  rewrite (resolve_pending_world c _ w1 Hp). simpl.
  destruct (resume_authorized_lookup c (access_token r) (runs w) (requests w) i Hi)
    as (q & Hr & Hq & Hle).
  exists q. rewrite <- Htok. repeat split; assumption.
Qed.

Lemma grant_resumes_awaiting_run_witness :
  exists q,
    runs (step reauthorizing (TokenCallback 1 (drive_readonly "U" 60) 6000000)) !! 1%nat
      = Some (AwaitFetch q) /\
    requests (step reauthorizing (TokenCallback 1 (drive_readonly "U" 60) 6000000)) !! q
      = Some (Some "U") /\
    (length (requests reauthorizing) <= q)%nat.
Proof.
  apply (grant_resumes_awaiting_run reauthorizing 1 1
           {| access_token := Some "U"; expires_in := 60; scope := [SCOPE] |}
           6000000 "U"); reflexivity.
Defined.

(** ** One attempt per click *)

(** What one event adds to the logs. *)
Lemma step_counts (w : World) (ev : Event) :
  length (runs (step w ev)) = (length (runs w) + ticks (is_fetch_click ev))%nat /\
  (length (clients (step w ev)) <= length (clients w) + ticks (is_fetch_click ev))%nat /\
  (length (requests (step w ev)) + awaiting_authorization (runs (step w ev))
     <= length (requests w) + awaiting_authorization (runs w)
        + ticks (is_fetch_click ev))%nat /\
  (length (revocations (step w ev))
     <= length (revocations w) + ticks (is_revoke_click ev))%nat.
Proof.
  destruct ev as [now| |c response now|c type|i|q res|q]; cbn [step].
  - unfold _run, awaiting_authorization.
    destruct (needs_authorization _ _); simpl;
      rewrite ?length_app, ?List.filter_app, ?length_app; simpl; lia.
  - unfold _revoke. destruct (_accessToken (elem w)) as [t|]; [|simpl; lia].
    destruct (truthy_string (Some t)); simpl; rewrite ?length_app; simpl; lia.
  - destruct (decide (c < length (clients w))%nat); [|simpl; lia].
    destruct (granted response) eqn:Hg.
    + destruct response as [r|]; [|discriminate Hg].
      rewrite (callback_granted c r now w Hg).
      set (w1 := with_elem _ w).
      destruct (decide (clients w1 !! c = Some Pending)) as [Hp|Hp].
      * rewrite (resolve_pending_world c _ w1 Hp). simpl.
        pose proof (resume_authorized_length c (access_token r) (runs w) (requests w)).
        pose proof (resume_authorized_counts c (access_token r) (runs w) (requests w)).
        rewrite length_insert. lia.
      * rewrite (resolve_settled c _ w1 Hp). simpl. lia.
    + rewrite (callback_not_granted c response now w Hg). simpl. lia.
  - destruct (decide (c < length (clients w))%nat); [|simpl; lia].
    unfold error_callback. set (w1 := with_elem _ w).
    destruct (decide (clients w1 !! c = Some Pending)) as [Hp|Hp].
    + unfold reject. rewrite Hp. simpl. rewrite advance_length, length_insert.
      pose proof (advance_awaiting (AwaitAuth c) (RunFailed (ProviderError type))
                    (runs w) eq_refl).
      lia.
    + rewrite (reject_settled c _ w1 Hp). simpl. lia.
  - destruct (decide _); simpl; lia.
  - unfold fetch_settled. destruct (decide _); [|simpl; lia].
    destruct (fetchFileList res) as [v|err]; simpl; rewrite advance_length.
    + pose proof (advance_awaiting (AwaitFetch q) RunDone (runs w) eq_refl). lia.
    + pose proof (advance_awaiting (AwaitFetch q) (RunFailed err) (runs w) eq_refl). lia.
  - unfold fetch_settled. destruct (decide _); [|simpl; lia].
    simpl. rewrite advance_length.
    pose proof (advance_awaiting (AwaitFetch q) (RunFailed NetworkError) (runs w) eq_refl).
    lia.
Qed.

Lemma exec_counts (evs : list Event) (w : World) :
  length (runs (exec w evs))
    = (length (runs w) + length (List.filter is_fetch_click evs))%nat /\
  (length (clients (exec w evs))
     <= length (clients w) + length (List.filter is_fetch_click evs))%nat /\
  (length (requests (exec w evs)) + awaiting_authorization (runs (exec w evs))
     <= length (requests w) + awaiting_authorization (runs w)
        + length (List.filter is_fetch_click evs))%nat /\
  (length (revocations (exec w evs))
     <= length (revocations w) + length (List.filter is_revoke_click evs))%nat.
Proof.
  revert w. induction evs as [|ev evs IH]; intros w; [simpl; lia|].
  simpl. destruct (IH (step w ev)) as (H1 & H2 & H3 & H4).
  destruct (step_counts w ev) as (S1 & S2 & S3 & S4).
  destruct (is_fetch_click ev), (is_revoke_click ev); simpl in *; lia.
Qed.

(** X6: Nothing is retried: in a session started by the constructor there is one
    run per click on "Fetch files", and the popups opened, the listing
    requests sent, and both together with the runs still waiting for a popup,
    never exceed the number of those clicks; the provider's revoke is called
    at most once per click on "Revoke access".  Callbacks and responses start
    nothing by themselves. *)
Theorem one_attempt_per_click (evs : list Event) :
  let w := exec start evs in
  let fetch_clicks := length (List.filter is_fetch_click evs) in
  let revoke_clicks := length (List.filter is_revoke_click evs) in
  length (runs w) = fetch_clicks /\
  (round_trips w <= fetch_clicks)%nat /\
  (length (requests w) + awaiting_authorization (runs w) <= fetch_clicks)%nat /\
  (length (revocations w) <= revoke_clicks)%nat.
Proof.
  cbv zeta. unfold round_trips.
  destruct (exec_counts evs start) as (H1 & H2 & H3 & H4).
  simpl in *. unfold awaiting_authorization in *. simpl in *. lia.
Qed.

(** ** Promises settle once *)

Lemma step_settled_promise (w : World) (ev : Event) (c : nat) (p : Promise) :
  clients w !! c = Some p -> p <> Pending -> clients (step w ev) !! c = Some p.
Proof.
  intros Hc Hp.
  destruct ev as [now| |c' response now|c' type|i|q res|q]; cbn [step].
  - unfold _run. destruct (needs_authorization _ _); simpl; [|exact Hc].
    apply lookup_app_l_Some. exact Hc.
  - unfold _revoke. destruct (_accessToken (elem w)) as [t|]; [|exact Hc].
    destruct (truthy_string (Some t)); exact Hc.
  - destruct (decide (c' < length (clients w))%nat); [|exact Hc].
    destruct (granted response) eqn:Hg.
    + destruct response as [r|]; [|discriminate Hg].
      rewrite (callback_granted c' r now w Hg). set (w1 := with_elem _ w).
      destruct (decide (clients w1 !! c' = Some Pending)) as [Hp'|Hp'].
      * rewrite (resolve_pending_world c' _ w1 Hp'). simpl.
        rewrite list_lookup_insert_ne; [exact Hc|].
        intros ->. simpl in Hp'. rewrite Hc in Hp'. injection Hp' as ->. contradiction.
      * rewrite (resolve_settled c' _ w1 Hp'). exact Hc.
    + rewrite (callback_not_granted c' response now w Hg). exact Hc.
  - destruct (decide (c' < length (clients w))%nat); [|exact Hc].
    unfold error_callback. set (w1 := with_elem _ w).
    destruct (decide (clients w1 !! c' = Some Pending)) as [Hp'|Hp'].
    + unfold reject. rewrite Hp'. simpl.
      rewrite list_lookup_insert_ne; [exact Hc|].
      intros ->. simpl in Hp'. rewrite Hc in Hp'. injection Hp' as ->. contradiction.
    + rewrite (reject_settled c' _ w1 Hp'). exact Hc.
  - destruct (decide _); exact Hc.
  - unfold fetch_settled. destruct (decide _); [|exact Hc].
    destruct (fetchFileList res); exact Hc.
  - unfold fetch_settled. destruct (decide _); exact Hc.
Qed.

(** X7: The promise of [_requestAuthorization] settles at most once: once it is
    resolved or rejected, no later event changes its outcome, not even
    further callbacks of the same token client. *)
Theorem settled_promise_is_final (w : World) (evs : list Event) (c : nat) (p : Promise) :
  clients w !! c = Some p -> p <> Pending -> clients (exec w evs) !! c = Some p.
Proof.
  revert w. induction evs as [|ev evs IH]; intros w Hc Hp; [exact Hc|].
  simpl. apply IH; [|exact Hp]. apply step_settled_promise; assumption.
Qed.

Lemma settled_promise_is_final_witness :
  clients (exec authorized [ErrorCallback 0 "popup_closed";
                            TokenCallback 0 (drive_readonly "U" 60) 2000;
                            ClickFetch 3000]) !! 0%nat
    = Some (Resolved (Some "T")).
Proof.
  apply (settled_promise_is_final authorized
           [ErrorCallback 0 "popup_closed"; TokenCallback 0 (drive_readonly "U" 60) 2000;
            ClickFetch 3000] 0 (Resolved (Some "T"))).
  - reflexivity.
  - discriminate.
Defined.

(** ** Overlapping listings *)

(** X8: With two listing requests in flight, [_files] ends up holding the list of
    the response that arrives last, whichever request was sent first. *)
Theorem last_response_wins
    (w : World) (q1 q2 : nat) (res1 res2 : Response) (v1 v2 : value) :
  q1 <> q2 ->
  AwaitFetch q1 ∈ runs w -> AwaitFetch q2 ∈ runs w ->
  fetchFileList res1 = Return v1 -> fetchFileList res2 = Return v2 ->
  _files (elem (exec w [FetchResponse q1 res1; FetchResponse q2 res2])) = v2 /\
  _files (elem (exec w [FetchResponse q2 res2; FetchResponse q1 res1])) = v1.
Proof.
  intros Hne H1 H2 Hr1 Hr2. simpl. rewrite Hr1, Hr2.
  rewrite (fetch_settled_return q1 v1 w H1), (fetch_settled_return q2 v2 w H2).
  split.
  - rewrite fetch_settled_return; [reflexivity|]. simpl.
    apply advance_other; [congruence | exact H2].
  - rewrite fetch_settled_return; [reflexivity|]. simpl.
    apply advance_other; [congruence | exact H1].
Qed.

Lemma last_response_wins_witness :
  let w := exec authorized [ClickFetch 2000] in
  _files (elem (exec w [FetchResponse 0 (listing ["old.txt"]);
                        FetchResponse 1 (listing ["new.txt"])]))
    = Arr [file "new.txt"] /\
  _files (elem (exec w [FetchResponse 1 (listing ["new.txt"]);
                        FetchResponse 0 (listing ["old.txt"])]))
    = Arr [file "old.txt"].
Proof.
  apply (last_response_wins (exec authorized [ClickFetch 2000]) 0 1
           (listing ["old.txt"]) (listing ["new.txt"])
           (Arr [file "old.txt"]) (Arr [file "new.txt"])).
  - discriminate.
  - apply (list_elem_of_lookup_2 _ 0%nat). reflexivity.
  - apply (list_elem_of_lookup_2 _ 1%nat). reflexivity.
  - reflexivity.
  - reflexivity.
Defined.

(** ** The revoke button *)


(** X10: Revocation is not debounced: while the confirmation is outstanding the
    token stays stored, and [n] clicks on "Revoke access" call the provider
    [n] times with the same token. *)
Theorem revoke_clicks_not_debounced (w : World) (T : string) (n : nat) :
  _accessToken (elem w) = Some T -> T <> "" ->
  revocations (exec w (replicate n ClickRevoke)) = (revocations w ++ replicate n T)%list /\
  elem (exec w (replicate n ClickRevoke)) = elem w.
Proof.
  intros Htok Hne. revert w Htok. induction n as [|n IH]; intros w Htok.
  - simpl. rewrite app_nil_r. split; reflexivity.
  - change (exec w (replicate (S n) ClickRevoke))
      with (exec (step w ClickRevoke) (replicate n ClickRevoke)).
    assert (Hstep : step w ClickRevoke = with_revocations (revocations w ++ [T]) w).
    { cbn [step]. unfold _revoke. rewrite Htok, (truthy_string_Some T Hne). reflexivity. }
    rewrite Hstep.
    destruct (IH (with_revocations (revocations w ++ [T]) w) Htok) as [Hr He].
    rewrite Hr, He. simpl. rewrite <- app_assoc. split; reflexivity.
Qed.

Lemma revoke_clicks_not_debounced_witness :
  revocations (exec authorized (replicate 3 ClickRevoke))
    = (revocations authorized ++ replicate 3 "T")%list /\
  elem (exec authorized (replicate 3 ClickRevoke)) = elem authorized.
Proof.
  apply (revoke_clicks_not_debounced authorized "T" 3).
  - reflexivity.
  - discriminate.
Defined.

(** X11: Once the provider has confirmed a revocation, the page shows the fetch
    button (and the error box, if an error was set) but neither the revoke
    button nor a file list, and the next click on "Fetch files" opens a popup
    whatever the clock says: the expiry left over in [_tokenExpiresAt] is not
    consulted, and no request goes out with the revoked token. *)
Theorem confirmed_revoke_forces_authorization (w : World) (i : nat) (now : Z) :
  (i < length (revocations w))%nat ->
  let w' := step w (RevokeCallback i) in
  render (elem w') = Return (option_list (errorMessage (elem w)) ++ [FetchButton])%list /\
  round_trips (step w' (ClickFetch now)) = S (round_trips w') /\
  requests (step w' (ClickFetch now)) = requests w'.
Proof.
  intros Hi w'.
  assert (Hw' : w' = revoke_callback w).
  { unfold w'. cbn [step]. rewrite decide_True by exact Hi. reflexivity. }
  rewrite Hw'. split; [reflexivity|].
  cbn [step]. rewrite _run_authorizes by reflexivity.
  unfold round_trips. simpl. rewrite length_app. simpl. split; [lia | reflexivity].
Qed.

Lemma confirmed_revoke_forces_authorization_witness :
  let w := step authorized ClickRevoke in
  let w' := step w (RevokeCallback 0) in
  render (elem w') = Return (option_list (errorMessage (elem w)) ++ [FetchButton])%list /\
  round_trips (step w' (ClickFetch 2000)) = S (round_trips w') /\
  requests (step w' (ClickFetch 2000)) = requests w'.
Proof.
  apply (confirmed_revoke_forces_authorization (step authorized ClickRevoke) 0 2000).
  vm_compute. lia.
Defined.

(** X12: A listing that fails changes nothing in the element, whatever the status:
    the token that was refused stays stored, and the next click before its
    expiry sends the same token again, without a popup. *)
Theorem failed_listing_keeps_token
    (w : World) (q : nat) (res : Response) (err : error) (T : string) (now : Z) :
  fetchFileList res = Throw err ->
  _accessToken (elem w) = Some T -> T <> "" ->
  now <= _tokenExpiresAt (elem w) ->
  let w' := step w (FetchResponse q res) in
  elem w' = elem w /\
  round_trips (step w' (ClickFetch now)) = round_trips w' /\
  requests (step w' (ClickFetch now)) = (requests w' ++ [Some T])%list.
Proof.
  intros Hthrow Htok Hne Hnow w'.
  assert (He : elem w' = elem w).
  { unfold w'. cbn [step]. rewrite Hthrow. unfold fetch_settled.
    destruct (decide _); reflexivity. }
  assert (Hn : needs_authorization (elem w') now = false).
  { rewrite He, (needs_authorization_stored (elem w) now T Htok Hne).
    apply Z.ltb_ge. exact Hnow. }
  split; [exact He|]. cbn [step]. rewrite (_run_reuses w' now Hn). simpl.
  rewrite He, Htok. split; reflexivity.
Qed.

Lemma failed_listing_keeps_token_witness :
  let w' := step authorized (FetchResponse 0 {| status := 401; json := None |}) in
  elem w' = elem authorized /\
  round_trips (step w' (ClickFetch 2000)) = round_trips w' /\
  requests (step w' (ClickFetch 2000)) = (requests w' ++ [Some "T"])%list.
Proof.
  apply (failed_listing_keeps_token authorized 0 {| status := 401; json := None |}
           (Error "Unable to fetch files") "T" 2000).
  - reflexivity.
  - reflexivity.
  - discriminate.
  - vm_compute. discriminate.
Defined.

(** ** The page *)

Lemma filesTemplate_files_array (e : AuthDemo) :
  files_array (_files e) = true -> exists r, filesTemplate e = Return r.
Proof.
  unfold filesTemplate. destruct (_files e) as [| | | | |xs|]; try discriminate.
  simpl. intros Hall. destruct xs as [|x xs]; [eexists; reflexivity|].
  assert (Hnn : Forall (fun file => file <> Undefined /\ file <> Null) (x :: xs)).
  { apply Forall_forall. intros f Hf.
    apply list_elem_of_In in Hf.
    pose proof (proj1 (forallb_forall _ _) Hall f Hf) as Hnull.
    destruct f; try discriminate Hnull; split; discriminate. }
  destruct (names_in_order (x :: xs) Hnn) as (names & Hmap & _).
  cbn [List.length Z.of_nat truthy Z.eqb negb]. rewrite Hmap. eexists. reflexivity.
Qed.

Lemma exec_files_array (evs : list Event) (w : World) :
  Forall listing_well_formed evs ->
  files_array (_files (elem w)) = true ->
  files_array (_files (elem (exec w evs))) = true.
Proof.
  intros Hwf. revert w. induction Hwf as [|ev evs Hev _ IH]; intros w Hw; [exact Hw|].
  simpl. apply IH.
  destruct (step_files w ev)
    as [-> | [(i & _ & _ & ->) | (q & res & v & -> & Hres & _ & ->)]].
  - exact Hw.
  - reflexivity.
  - apply Hev. exact Hres.
Qed.

(** X13: As long as every listing that succeeds hands back an array of files (none
    of them [undefined] or [null]), [render] never throws: in every state the
    session reaches, whatever the order of clicks, callbacks, failures and
    revocations, the page can be drawn. *)
Theorem render_never_throws_on_well_formed_listings (evs : list Event) :
  Forall listing_well_formed evs ->
  exists nodes, render (elem (exec start evs)) = Return nodes.
Proof.
  intros Hwf.
  destruct (filesTemplate_files_array (elem (exec start evs))) as [r Hr].
  - apply exec_files_array; [exact Hwf | reflexivity].
  - unfold render. rewrite Hr. eexists. reflexivity.
Qed.

Lemma render_never_throws_on_well_formed_listings_witness :
  exists nodes,
    render (elem (exec start [ClickFetch 1000; TokenCallback 0 (drive_readonly "T" 3600) 1000;
                              FetchResponse 0 (listing ["a.txt"; "b.txt"]);
                              ClickFetch 2000;
                              FetchResponse 1 {| status := 500; json := None |}]))
      = Return nodes.
Proof.
  apply (render_never_throws_on_well_formed_listings
           [ClickFetch 1000; TokenCallback 0 (drive_readonly "T" 3600) 1000;
            FetchResponse 0 (listing ["a.txt"; "b.txt"]);
            ClickFetch 2000;
            FetchResponse 1 {| status := 500; json := None |}]).
  repeat (constructor; [first [exact I | intros v Hv; vm_compute in Hv; first [discriminate Hv | injection Hv as <-; reflexivity]]|]).
  constructor.
Defined.

(** X14: What a drawn page says about the state: the fetch button is always
    there; the revoke button is there exactly when a non-empty token is
    stored; an error box with message [m] is there exactly when [_error] holds
    the non-empty [m]; and a list of names is there exactly when
    [filesTemplate] rendered those names. *)
Theorem page_reflects_state (e : AuthDemo) (nodes : list Template) :
  render e = Return nodes ->
  FetchButton ∈ nodes /\
  (RevokeButton ∈ nodes <-> exists T, _accessToken e = Some T /\ T <> "") /\
  (forall m, ErrorBox m ∈ nodes <-> _error e = Some m /\ m <> "") /\
  (forall names, FilesList names ∈ nodes <-> filesTemplate e = Return (Some names)).
Proof.
  unfold render, fetchTemplate. cbv zeta.
  destruct (filesTemplate e) as [files|err] eqn:Hfiles; [|discriminate].
  cbn [bind]. intros [= <-].
  assert (Herr : forall m, ErrorBox m ∈ option_list (errorMessage e)
                           <-> _error e = Some m /\ m <> "").
  { intros m. unfold errorMessage.
    destruct (_error e) as [m'|]; simpl.
    - destruct (String.eqb_spec m' ""); simpl.
      + rewrite elem_of_nil. split; [contradiction|]. intros [[= ->] Hne]. contradiction.
      + rewrite list_elem_of_singleton. split.
        * intros [= ->]. split; [reflexivity | assumption].
        * intros [[= ->] _]. reflexivity.
    - rewrite elem_of_nil. split; [contradiction|]. intros [Hm _]. discriminate Hm. }
  assert (Hrev : RevokeButton ∈ option_list (revokeTemplate e)
                 <-> exists T, _accessToken e = Some T /\ T <> "").
  { unfold revokeTemplate. destruct (truthy_string (_accessToken e)) eqn:HT; simpl.
    - rewrite list_elem_of_singleton. split; [|reflexivity].
      intros _. apply truthy_string_inv. exact HT.
    - rewrite elem_of_nil. split; [contradiction|].
      intros (T & Htok & Hne). rewrite Htok, (truthy_string_Some T Hne) in HT.
      discriminate HT. }
  assert (Hno_err : forall t, (forall m, t <> ErrorBox m) ->
                              t ∉ option_list (errorMessage e)).
  { intros t Ht. unfold errorMessage.
    destruct (truthy_string (_error e)), (_error e) as [m|]; simpl;
      rewrite ?elem_of_nil, ?list_elem_of_singleton; auto. }
  assert (Hno_rev : forall t, t <> RevokeButton -> t ∉ option_list (revokeTemplate e)).
  { intros t Ht. unfold revokeTemplate.
    destruct (negb (truthy_string (_accessToken e))); simpl;
      rewrite ?elem_of_nil, ?list_elem_of_singleton; auto. }
  assert (Hno_files : forall t, (forall names, t <> FilesList names) ->
                                t ∉ option_list (option_map FilesList files)).
  { intros t Ht. destruct files as [names|]; simpl;
      rewrite ?elem_of_nil, ?list_elem_of_singleton; auto. }
  split_and!.
  - rewrite elem_of_app, elem_of_cons, elem_of_app. auto.
  - rewrite elem_of_app, elem_of_cons, elem_of_app, Hrev. split; [|auto].
    intros [H | [H | [H | H]]].
    + exfalso. exact (Hno_err RevokeButton ltac:(discriminate) H).
    + discriminate H.
    + exact H.
    + exfalso. exact (Hno_files RevokeButton ltac:(discriminate) H).
  - intros m. rewrite elem_of_app, elem_of_cons, elem_of_app, Herr. split; [|auto].
    intros [H | [H | [H | H]]].
    + exact H.
    + discriminate H.
    + exfalso. exact (Hno_rev (ErrorBox m) ltac:(discriminate) H).
    + exfalso. exact (Hno_files (ErrorBox m) ltac:(discriminate) H).
  - intros names. rewrite elem_of_app, elem_of_cons, elem_of_app. split.
    + intros [H | [H | [H | H]]].
      * exfalso. exact (Hno_err (FilesList names) ltac:(discriminate) H).
      * discriminate H.
      * exfalso. exact (Hno_rev (FilesList names) ltac:(discriminate) H).
      * destruct files as [names'|]; simpl in H.
        -- apply list_elem_of_singleton in H. injection H as ->. reflexivity.
        -- apply elem_of_nil in H. contradiction.
    + intros [= ->]. right. right. right. simpl. apply list_elem_of_singleton. reflexivity.
Qed.

Lemma page_reflects_state_witness :
  let e := elem (exec authorized [FetchResponse 0 (listing ["a.txt"])]) in
  let nodes := [FetchButton; RevokeButton; FilesList [Str "a.txt"]] in
  FetchButton ∈ nodes /\
  (RevokeButton ∈ nodes <-> exists T, _accessToken e = Some T /\ T <> "") /\
  (forall m, ErrorBox m ∈ nodes <-> _error e = Some m /\ m <> "") /\
  (forall names, FilesList names ∈ nodes <-> filesTemplate e = Return (Some names)).
Proof.
  apply (page_reflects_state (elem (exec authorized [FetchResponse 0 (listing ["a.txt"])]))
           [FetchButton; RevokeButton; FilesList [Str "a.txt"]]).
  reflexivity.
Defined.

(** ** Single flight *)

Lemma advance_elem (from to r : RunState) (rs : list RunState) :
  r ∈ advance from to rs -> r = to \/ r ∈ rs.
Proof.
  unfold advance. intros H. apply list_elem_of_fmap in H as (r0 & -> & Hin).
  destruct (decide (r0 = from)); [left; reflexivity | right; exact Hin].
Qed.

Lemma resume_authorized_await (c c' : nat) (tok : option string)
    (rs : list RunState) (qs : list (option string)) :
  AwaitAuth c' ∈ (resume_authorized c tok qs rs).2 -> AwaitAuth c' ∈ rs.
Proof.
  revert qs. induction rs as [|r rs IH]; intros qs; [simpl; auto|].
  simpl. destruct (decide (r = AwaitAuth c)).
  - specialize (IH (qs ++ [tok])%list).
    destruct (resume_authorized c tok (qs ++ [tok]) rs) as [qs' rs']. simpl in *.
    rewrite !elem_of_cons. intros [H | H]; [discriminate H | right; auto].
  - specialize (IH qs).
    destruct (resume_authorized c tok qs rs) as [qs' rs']. simpl in *.
    rewrite !elem_of_cons. intros [H | H]; [left; exact H | right; auto].
Qed.

(** A run only ever waits for a popup that was opened. *)
Lemma step_awaits_opened (w : World) (ev : Event) :
  (forall c, AwaitAuth c ∈ runs w -> (c < length (clients w))%nat) ->
  forall c, AwaitAuth c ∈ runs (step w ev) -> (c < length (clients (step w ev)))%nat.
Proof.
  intros Hw c.
  destruct ev as [now| |c' response now|c' type|i|q res|q]; cbn [step].
  - unfold _run. destruct (needs_authorization _ _); simpl.
    + rewrite elem_of_app, list_elem_of_singleton, length_app. simpl.
      intros [H | [= ->]]; [apply Hw in H|]; lia.
    + rewrite elem_of_app, list_elem_of_singleton.
      intros [H | H]; [apply Hw; exact H | discriminate H].
  - unfold _revoke. destruct (_accessToken (elem w)) as [t|]; [|apply Hw].
    destruct (truthy_string (Some t)); apply Hw.
  - destruct (decide (c' < length (clients w))%nat); [|apply Hw].
    destruct (granted response) eqn:Hg.
    + destruct response as [r|]; [|discriminate Hg].
      rewrite (callback_granted c' r now w Hg). set (w1 := with_elem _ w).
      destruct (decide (clients w1 !! c' = Some Pending)) as [Hp|Hp].
      * rewrite (resolve_pending_world c' _ w1 Hp). simpl. rewrite length_insert.
        intros H. apply Hw. eapply resume_authorized_await. exact H.
      * rewrite (resolve_settled c' _ w1 Hp). apply Hw.
    + rewrite (callback_not_granted c' response now w Hg). apply Hw.
  - destruct (decide (c' < length (clients w))%nat); [|apply Hw].
    unfold error_callback. set (w1 := with_elem _ w).
    destruct (decide (clients w1 !! c' = Some Pending)) as [Hp|Hp].
    + unfold reject. rewrite Hp. simpl. rewrite length_insert.
      intros H. apply advance_elem in H as [H | H]; [discriminate H | apply Hw; exact H].
    + rewrite (reject_settled c' _ w1 Hp). apply Hw.
  - destruct (decide _); apply Hw.
  - unfold fetch_settled. destruct (decide _); [|apply Hw].
    destruct (fetchFileList res); simpl; intros H;
      apply advance_elem in H as [H | H]; try discriminate H; apply Hw; exact H.
  - unfold fetch_settled. destruct (decide _); [|apply Hw].
    simpl. intros H.
    apply advance_elem in H as [H | H]; [discriminate H | apply Hw; exact H].
Qed.

Lemma exec_awaits_opened (evs : list Event) (w : World) :
  (forall c, AwaitAuth c ∈ runs w -> (c < length (clients w))%nat) ->
  forall c, AwaitAuth c ∈ runs (exec w evs) -> (c < length (clients (exec w evs)))%nat.
Proof.
  revert w. induction evs as [|ev evs IH]; intros w Hw; [exact Hw|].
  simpl. apply IH. apply step_awaits_opened. exact Hw.
Qed.

(** C1, as the code has it: in every state the session reaches, a fetch
    trigger that finds no usable token starts a provider round-trip of its own
    whatever is already in flight.  [_run] has no guard on a pending
    authorization: the trigger opens one more popup (one more token client,
    pending), sends no request, leaves the element as it was, and its run
    awaits that new popup, which no run before it awaits. *)
Theorem fetch_trigger_starts_own_round_trip (evs : list Event) (now : Z) :
  let w := exec start evs in
  let w' := step w (ClickFetch now) in
  needs_authorization (elem w) now = true ->
  round_trips w' = S (round_trips w) /\
  in_flight w' = S (in_flight w) /\
  elem w' = elem w /\
  requests w' = requests w /\
  clients w' = (clients w ++ [Pending])%list /\
  runs w' = (runs w ++ [AwaitAuth (round_trips w)])%list /\
  clients w' !! round_trips w = Some Pending /\
  (forall i, runs w !! i <> Some (AwaitAuth (round_trips w))).
Proof.
  intros w w' H. unfold w'. cbn [step]. rewrite (_run_authorizes w now H).
  unfold round_trips, in_flight. simpl.
  rewrite length_app, filter_app, length_app.
  rewrite filter_cons_True by reflexivity.
  rewrite filter_nil. simpl. split_and!; try reflexivity; try lia.
  - rewrite lookup_app_r by lia. replace (length (clients w) - length (clients w))%nat
      with 0%nat by lia. reflexivity.
  - intros i Hi.
    assert (Hlt : (length (clients w) < length (clients w))%nat); [|lia].
    apply (exec_awaits_opened evs start).
    + simpl. intros c Hc. apply elem_of_nil in Hc. contradiction.
    + eapply list_elem_of_lookup_2. exact Hi.
Qed.

Lemma fetch_trigger_starts_own_round_trip_witness :
  let w := exec start [ClickFetch 1000] in
  let w' := step w (ClickFetch 1001) in
  round_trips w' = S (round_trips w) /\
  in_flight w' = S (in_flight w) /\
  elem w' = elem w /\
  requests w' = requests w /\
  clients w' = (clients w ++ [Pending])%list /\
  runs w' = (runs w ++ [AwaitAuth (round_trips w)])%list /\
  clients w' !! round_trips w = Some Pending /\
  (forall i, runs w !! i <> Some (AwaitAuth (round_trips w))).
Proof.
  apply (fetch_trigger_starts_own_round_trip [ClickFetch 1000] 1001).
  reflexivity.
Defined.

(** C1 as stated fails: a second fetch trigger that arrives while the first
    popup is open opens a second popup. *)
Lemma second_trigger_opens_second_popup :
  let w1 := exec start [ClickFetch 1000] in
  let w2 := step w1 (ClickFetch 1001) in
  in_flight w1 = 1%nat /\ round_trips w1 = 1%nat /\
  round_trips w2 = 2%nat /\ in_flight w2 = 2%nat /\
  runs w2 = [AwaitAuth 0; AwaitAuth 1].
Proof. vm_compute. repeat split. Qed.

(** ** Revocation *)

(** The log of provider revoke calls only grows. *)
Lemma step_revocations (w : World) (ev : Event) :
  exists l, revocations (step w ev) = (revocations w ++ l)%list.
Proof.
  destruct ev as [now| |c response now|c type|i|q res|q]; cbn [step].
  - exists []. rewrite app_nil_r. unfold _run. destruct (needs_authorization _ _); reflexivity.
  - unfold _revoke. destruct (_accessToken (elem w)) as [t|].
    + destruct (truthy_string (Some t)); [exists [t] | exists []; rewrite app_nil_r]; reflexivity.
    + exists []. rewrite app_nil_r. reflexivity.
  - exists []. rewrite app_nil_r.
    destruct (decide (c < length (clients w))%nat); [|reflexivity].
    destruct (granted response) eqn:Hg.
    + destruct response as [r|]; [|discriminate Hg].
      rewrite (callback_granted c r now w Hg).
      match goal with |- context [resolve c ?v ?w1] =>
        destruct (resolve_frame c v w1) as (_ & Hr & _); rewrite Hr end.
      reflexivity.
    + rewrite (callback_not_granted c response now w Hg). reflexivity.
  - exists []. rewrite app_nil_r.
    destruct (decide (c < length (clients w))%nat); [|reflexivity].
    unfold error_callback.
    match goal with |- context [reject c ?err ?w1] =>
      destruct (reject_frame c err w1) as (_ & _ & Hr); rewrite Hr end.
    reflexivity.
  - exists []. rewrite app_nil_r. destruct (decide _); reflexivity.
  - exists []. rewrite app_nil_r. unfold fetch_settled. destruct (decide _); [|reflexivity].
    destruct (fetchFileList res); reflexivity.
  - exists []. rewrite app_nil_r. unfold fetch_settled. destruct (decide _); reflexivity.
Qed.

Lemma exec_revocations (evs : list Event) (w : World) :
  exists l, revocations (exec w evs) = (revocations w ++ l)%list.
Proof.
  revert w. induction evs as [|ev evs IH]; intros w.
  - exists []. rewrite app_nil_r. reflexivity.
  - simpl. destruct (IH (step w ev)) as [l Hl]. destruct (step_revocations w ev) as [l0 Hl0].
    exists (l0 ++ l)%list. rewrite Hl, Hl0, app_assoc. reflexivity.
Qed.

(** Only a confirmation takes the token away. *)
Lemma exec_token_survives (evs : list Event) (w : World) :
  Forall (fun ev => is_revoke_confirmation ev = false) evs ->
  truthy_string (_accessToken (elem w)) = true ->
  truthy_string (_accessToken (elem (exec w evs))) = true.
Proof.
  intros Hevs. revert w. induction Hevs as [|ev evs Hev _ IH]; intros w Hw; [exact Hw|].
  simpl. apply IH.
  destruct (step_credential w ev)
    as [[-> _] | [(_ & _ & i & ->) | (c & r & now & _ & Hg & -> & _)]].
  - exact Hw.
  - discriminate Hev.
  - simpl in Hg. apply andb_prop in Hg as [Hg _]. exact Hg.
Qed.

(** C4, as the code has it: [_revoke] with a token stored hands that token to
    the provider and clears nothing, and no event other than a confirmation
    takes the stored token away afterwards.  Whenever the provider's
    completion callback for that call arrives, after whatever other events and
    whatever token is stored by then, it resets the token to [null] and the
    file list to [[]], and leaves [_tokenExpiresAt], [_error] and everything
    else as they were. *)
Theorem revoke_clears_token_on_confirmation (w : World) (T : string) (evs : list Event) :
  _accessToken (elem w) = Some T -> T <> "" ->
  let w1 := step w ClickRevoke in
  let w2 := exec w1 evs in
  let w3 := step w2 (RevokeCallback (length (revocations w))) in
  revocations w1 = (revocations w ++ [T])%list /\
  elem w1 = elem w /\
  (Forall (fun ev => is_revoke_confirmation ev = false) evs ->
   exists U, _accessToken (elem w2) = Some U /\ U <> "") /\
  revocations w2 !! length (revocations w) = Some T /\
  _accessToken (elem w3) = None /\
  _files (elem w3) = Arr [] /\
  _tokenExpiresAt (elem w3) = _tokenExpiresAt (elem w2) /\
  _error (elem w3) = _error (elem w2) /\
  clients w3 = clients w2 /\ requests w3 = requests w2 /\
  runs w3 = runs w2 /\ revocations w3 = revocations w2.
Proof.
  intros Htok Hne w1 w2 w3.
  assert (Hw1 : w1 = with_revocations (revocations w ++ [T]) w).
  { unfold w1. cbn [step]. unfold _revoke. rewrite Htok, (truthy_string_Some T Hne).
    reflexivity. }
  destruct (exec_revocations evs w1) as [l Hl]. fold w2 in Hl.
  assert (Hlog : revocations w2 = (revocations w ++ T :: l)%list).
  { rewrite Hl, Hw1. simpl. rewrite <- app_assoc. reflexivity. }
  assert (Hw3 : w3 = revoke_callback w2).
  { unfold w3. cbn [step]. rewrite decide_True; [reflexivity|].
    rewrite Hlog, length_app. simpl. lia. }
  split_and!.
  - rewrite Hw1. reflexivity.
  - rewrite Hw1. reflexivity.
  - intros Hevs. apply truthy_string_inv. unfold w2.
    apply exec_token_survives; [exact Hevs|].
    rewrite Hw1. simpl. rewrite Htok. apply truthy_string_Some. exact Hne.
  - rewrite Hlog. rewrite lookup_app_r by lia.
    replace (length (revocations w) - length (revocations w))%nat with 0%nat by lia.
    reflexivity.
  - rewrite Hw3. reflexivity.
  - rewrite Hw3. reflexivity.
  - rewrite Hw3. reflexivity.
  - rewrite Hw3. reflexivity.
  - rewrite Hw3. reflexivity.
  - rewrite Hw3. reflexivity.
  - rewrite Hw3. reflexivity.
  - rewrite Hw3. reflexivity.
Qed.

Lemma revoke_clears_token_on_confirmation_witness :
  let evs := [TokenCallback 1 (drive_readonly "U" 60) 6000000;
              FetchResponse 1 (listing ["a.txt"])] in
  let w1 := step reauthorizing ClickRevoke in
  let w2 := exec w1 evs in
  let w3 := step w2 (RevokeCallback (length (revocations reauthorizing))) in
  (_accessToken (elem w2) = Some "U" /\ _files (elem w2) = Arr [file "a.txt"]) /\
  revocations w1 = (revocations reauthorizing ++ ["T"])%list /\
  elem w1 = elem reauthorizing /\
  (Forall (fun ev => is_revoke_confirmation ev = false) evs ->
   exists U, _accessToken (elem w2) = Some U /\ U <> "") /\
  revocations w2 !! length (revocations reauthorizing) = Some "T" /\
  _accessToken (elem w3) = None /\
  _files (elem w3) = Arr [] /\
  _tokenExpiresAt (elem w3) = _tokenExpiresAt (elem w2) /\
  _error (elem w3) = _error (elem w2) /\
  clients w3 = clients w2 /\ requests w3 = requests w2 /\
  runs w3 = runs w2 /\ revocations w3 = revocations w2.
Proof.
  split; [split; reflexivity|].
  apply (revoke_clears_token_on_confirmation reauthorizing "T"
           [TokenCallback 1 (drive_readonly "U" 60) 6000000;
            FetchResponse 1 (listing ["a.txt"])]).
  - reflexivity.
  - discriminate.
Defined.

(** C4 as stated fails: after the provider confirmed the revocation the
    token is [null] and [_tokenExpiresAt] still holds the old expiry, not [0]. *)
Lemma revoke_keeps_expiry :
  let w := exec authorized [ClickRevoke; RevokeCallback 0] in
  revocations w = ["T"] /\
  _accessToken (elem w) = None /\
  _files (elem w) = Arr [] /\
  _tokenExpiresAt (elem w) = 3601000 /\
  _tokenExpiresAt (elem w) <> 0.
Proof. vm_compute. repeat split. discriminate. Qed.

(** ** A fetch that fails *)

Lemma advance_lookup_ne (from to r : RunState) (rs : list RunState) (i : nat) :
  rs !! i = Some r -> r <> from -> advance from to rs !! i = Some r.
Proof.
  intros H Hne. unfold advance. rewrite list_lookup_fmap, H. simpl.
  rewrite decide_False by exact Hne. reflexivity.
Qed.

Lemma resume_authorized_other (c : nat) (tok : option string)
    (rs : list RunState) (qs : list (option string)) (i : nat) (r : RunState) :
  rs !! i = Some r -> r <> AwaitAuth c ->
  (resume_authorized c tok qs rs).2 !! i = Some r.
Proof.
  revert qs i. induction rs as [|r0 rs IH]; intros qs i Hi Hne; [discriminate Hi|].
  simpl. destruct i as [|i]; simpl in Hi.
  - injection Hi as ->. rewrite decide_False by exact Hne.
    destruct (resume_authorized c tok qs rs) as [qs' rs']. reflexivity.
  - destruct (decide (r0 = AwaitAuth c)).
    + specialize (IH (qs ++ [tok])%list i Hi Hne).
      destruct (resume_authorized c tok (qs ++ [tok]) rs) as [qs' rs']. exact IH.
    + specialize (IH qs i Hi Hne).
      destruct (resume_authorized c tok qs rs) as [qs' rs']. exact IH.
Qed.

(** A run that completed stays completed. *)
Lemma step_done (w : World) (ev : Event) (i : nat) :
  runs w !! i = Some RunDone -> runs (step w ev) !! i = Some RunDone.
Proof.
  intros Hi.
  destruct ev as [now| |c response now|c type|k|q res|q]; cbn [step].
  - unfold _run. destruct (needs_authorization _ _); simpl;
      apply lookup_app_l_Some; exact Hi.
  - unfold _revoke. destruct (_accessToken (elem w)) as [t|]; [|exact Hi].
    destruct (truthy_string (Some t)); exact Hi.
  - destruct (decide (c < length (clients w))%nat); [|exact Hi].
    destruct (granted response) eqn:Hg.
    + destruct response as [r|]; [|discriminate Hg].
      rewrite (callback_granted c r now w Hg). set (w1 := with_elem _ w).
      destruct (decide (clients w1 !! c = Some Pending)) as [Hp|Hp].
      * rewrite (resolve_pending_world c _ w1 Hp). simpl.
        apply resume_authorized_other; [exact Hi | discriminate].
      * rewrite (resolve_settled c _ w1 Hp). exact Hi.
    + rewrite (callback_not_granted c response now w Hg). exact Hi.
  - destruct (decide (c < length (clients w))%nat); [|exact Hi].
    unfold error_callback. set (w1 := with_elem _ w).
    destruct (decide (clients w1 !! c = Some Pending)) as [Hp|Hp].
    + unfold reject. rewrite Hp. simpl.
      apply advance_lookup_ne; [exact Hi | discriminate].
    + rewrite (reject_settled c _ w1 Hp). exact Hi.
  - destruct (decide _); exact Hi.
  - unfold fetch_settled. destruct (decide _); [|exact Hi].
    destruct (fetchFileList res); simpl;
      (apply advance_lookup_ne; [exact Hi | discriminate]).
  - unfold fetch_settled. destruct (decide _); [|exact Hi].
    simpl. apply advance_lookup_ne; [exact Hi | discriminate].
Qed.

Lemma exec_done (evs : list Event) (w : World) (i : nat) :
  runs w !! i = Some RunDone -> runs (exec w evs) !! i = Some RunDone.
Proof.
  revert w. induction evs as [|ev evs IH]; intros w Hi; [exact Hi|].
  simpl. apply IH. apply step_done. exact Hi.
Qed.

Lemma exec_quiet_files (evs : list Event) (w : World) :
  Forall quiet evs -> _files (elem (exec w evs)) = _files (elem w).
Proof.
  intros Hq. revert w. induction Hq as [|ev evs Hev _ IH]; intros w; [reflexivity|].
  simpl. rewrite IH.
  destruct (step_files w ev)
    as [Heq | [(k & -> & _) | (q & res & v & -> & Hres & _)]].
  - exact Heq.
  - destruct Hev.
  - exfalso. exact (Hev v Hres).
Qed.

(** The event that ends a run writes nothing and leaves the run rejected. *)
Lemma fetch_fails_step (w : World) (ev : Event) (i : nat) (e : error) :
  fetch_fails w ev i e ->
  _files (elem (step w ev)) = _files (elem w) /\
  runs (step w ev) !! i = Some (RunFailed e).
Proof.
  intros Hfail.
  destruct Hfail as [q res e i Hthrow Hi | q i Hi | c type i Hp Hi]; cbn [step].
  - assert (Hin : AwaitFetch q ∈ runs w) by (eapply list_elem_of_lookup_2; exact Hi).
    rewrite Hthrow, (fetch_settled_throw q e w Hin). simpl.
    split; [reflexivity | apply advance_lookup; exact Hi].
  - assert (Hin : AwaitFetch q ∈ runs w) by (eapply list_elem_of_lookup_2; exact Hi).
    rewrite (fetch_settled_throw q NetworkError w Hin). simpl.
    split; [reflexivity | apply advance_lookup; exact Hi].
  - assert (Hc : (c < length (clients w))%nat) by (apply lookup_lt_is_Some; eauto).
    rewrite decide_True by exact Hc. unfold error_callback.
    set (w1 := with_elem (set_error (Some (error_message type)) (elem w)) w).
    destruct (reject_frame c (ProviderError type) w1) as (He & _ & _).
    destruct (reject_pending c (ProviderError type) w1 Hp) as [_ Hru].
    rewrite He, Hru. split; [reflexivity | apply advance_lookup; exact Hi].
Qed.

Lemma fetch_fails_not_done (w : World) (ev : Event) (i : nat) (e : error) :
  fetch_fails w ev i e -> runs w !! i <> Some RunDone.
Proof.
  intros Hfail. destruct Hfail as [q res e i _ Hi | q i Hi | c type i _ Hi];
    rewrite Hi; discriminate.
Qed.

(** C10: take a click on "Fetch files" in any world, and let its run (number
    [i]) fail later, after any events [evs], by the event [ev]: the listing
    call throws (as it does for every status from 400 on), the request gets no
    response, or the authorization promise is rejected.  Then the click wrote
    nothing to [_files]; the failing event wrote nothing and left the run
    rejected with that error; and whatever did change [_files] in between was
    the confirmation of a revocation or the listing of another run, never a
    step of the failed run.  With no such event in between, [_files] after the
    failure is what it was before the click. *)
Theorem failed_fetch_keeps_files
    (w : World) (now : Z) (evs : list Event) (ev : Event) (e : error) :
  let i := length (runs w) in
  let w1 := exec w (ClickFetch now :: evs) in
  fetch_fails w1 ev i e ->
  (exists r, runs (step w (ClickFetch now)) = (runs w ++ [r])%list) /\
  _files (elem (step w (ClickFetch now))) = _files (elem w) /\
  (forall pre ev' post,
     evs = (pre ++ ev' :: post)%list ->
     let w0 := exec w (ClickFetch now :: pre) in
     _files (elem (step w0 ev')) <> _files (elem w0) ->
     (exists k, ev' = RevokeCallback k) \/
     (exists q res j,
        ev' = FetchResponse q res /\ j <> i /\
        runs w0 !! j = Some (AwaitFetch q) /\
        runs w0 !! i <> Some (AwaitFetch q))) /\
  _files (elem (step w1 ev)) = _files (elem w1) /\
  runs (step w1 ev) !! i = Some (RunFailed e) /\
  (Forall quiet evs -> _files (elem (step w1 ev)) = _files (elem w)).
Proof.
  intros i w1 Hfail.
  assert (Hclick : _files (elem (step w (ClickFetch now))) = _files (elem w)).
  { cbn [step]. unfold _run. destruct (needs_authorization _ _); reflexivity. }
  destruct (fetch_fails_step w1 ev i e Hfail) as [Hlast Hrun].
  split_and!.
  - cbn [step]. unfold _run. destruct (needs_authorization _ _); simpl; eauto.
  - exact Hclick.
  - intros pre ev' post Hevs w0 Hch.
    destruct (step_files w0 ev')
      as [Heq | [(k & -> & _) | (q & res & v & -> & Hres & Hin & _)]].
    + contradiction.
    + left. eauto.
    + right.
      assert (Hi : runs w0 !! i <> Some (AwaitFetch q)).
      { intros Hi. apply (fetch_fails_not_done w1 ev i e Hfail).
        assert (Hw1 : w1 = exec (step w0 (FetchResponse q res)) post).
        { unfold w1, w0, exec. rewrite Hevs. simpl. rewrite foldl_app. reflexivity. }
        rewrite Hw1. apply exec_done. cbn [step].
        rewrite Hres, (fetch_settled_return q v w0 Hin). simpl.
        apply advance_lookup. exact Hi. }
      apply list_elem_of_lookup_1 in Hin as [j Hj].
      exists q, res, j. split_and!; try reflexivity; try assumption.
      intros ->. contradiction.
  - exact Hlast.
  - exact Hrun.
  - intros Hq. rewrite Hlast. unfold w1.
    change (exec w (ClickFetch now :: evs)) with (exec (step w (ClickFetch now)) evs).
    rewrite (exec_quiet_files evs _ Hq). exact Hclick.
Qed.

Lemma failed_fetch_keeps_files_witness :
  let w := exec start [ClickFetch 1000; TokenCallback 0 (drive_readonly "T" 3600) 1000;
                       FetchResponse 0 (listing ["a.txt"])] in
  let evs := [TokenCallback 1 (drive_readonly "U" 60) 5000001] in
  let ev := FetchResponse 1 {| status := 500; json := None |} in
  let w1 := exec w (ClickFetch 5000000 :: evs) in
  _files (elem w) = Arr [file "a.txt"] /\
  runs w1 = [RunDone; AwaitFetch 1] /\
  runs (step w1 ev) !! 1%nat = Some (RunFailed (Error "Unable to fetch files")) /\
  _files (elem (step w1 ev)) = _files (elem w).
Proof.
  split; [reflexivity|]. split; [reflexivity|].
  destruct (failed_fetch_keeps_files
              (exec start [ClickFetch 1000; TokenCallback 0 (drive_readonly "T" 3600) 1000;
                           FetchResponse 0 (listing ["a.txt"])])
              5000000
              [TokenCallback 1 (drive_readonly "U" 60) 5000001]
              (FetchResponse 1 {| status := 500; json := None |})
              (Error "Unable to fetch files"))
    as (_ & _ & _ & _ & Hrun & Hfiles).
  - apply listing_throws; reflexivity.
  - split; [exact Hrun|]. apply Hfiles. repeat constructor.
Defined.
